(** * genie-drs: the DRS archive directory model (src/DRS.js)

    A shallow embedding of [DRS.js]: the table-type codec, the header,
    table and file directory readers, the lookup and read paths, the
    builder ([putFile], [createWriteStream]) and the callback-driven
    control flow of the handle, followed by the properties of the
    specification that were checked against it. *)

From Stdlib Require Import ZArith List Lia Bool.
From Stdlib Require Import Strings.String Strings.Ascii Strings.Byte.
From stdpp Require Import base list.

Import ListNotations.
Local Open Scope string_scope.
Local Open Scope Z_scope.

(** ** JavaScript numbers as used by DRS.js

    The bitwise operators of JavaScript work on 32-bit two's complement
    integers.  Numbers are [Z]; [NaN] only arises from [charCodeAt] out of
    range and is the [None] of an [option Z]. *)

Module JS.

Definition ToInt32 (x : Z) : Z := (x + 2 ^ 31) mod 2 ^ 32 - 2 ^ 31.

(** [a << n] *)
Definition shl (a n : Z) : Z := ToInt32 (Z.shiftl (ToInt32 a) n).

(** [a >> n] (sign-propagating) *)
Definition sar (a n : Z) : Z := Z.shiftr (ToInt32 a) n.

(** [a & b] *)
Definition and (a b : Z) : Z := Z.land (ToInt32 a) (ToInt32 b).

(** [ToInt32] of a number that may be [NaN]: [NaN] converts to [0]. *)
Definition ToInt32_nan (x : option Z) : Z :=
  match x with Some v => v | None => 0 end.

(** [x + y] where either side may be [NaN]. *)
Definition add_nan (x y : option Z) : option Z :=
  match x, y with Some a, Some b => Some (a + b) | _, _ => None end.

(** [String.fromCharCode(n)] for a code unit below 256. *)
Definition fromCharCode (n : Z) : ascii := ascii_of_N (Z.to_N n).

(** [str.charCodeAt(i)]: [NaN] past the end of the string. *)
Definition charCodeAt (str : string) (i : nat) : option Z :=
  match String.get i str with
  | Some c => Some (Z.of_N (N_of_ascii c))
  | None => None
  end.

(** [!x] for a property that is [undefined] or a number. *)
Definition falsy (x : option Z) : bool :=
  match x with None => true | Some v => v =? 0 end.

End JS.

(** ** Constants *)

Definition HEADER_SIZE_AOE : Z := 64.
Definition HEADER_SIZE_SWGB : Z := 84.
Definition TABLE_META_SIZE : Z := 12.
Definition FILE_META_SIZE : Z := 12.

Definition COPYRIGHT_SWGB : string :=
  "Copyright (c) 2001 LucasArts Entertainment Company LLC".

(** ** The table-type codec *)

(** [parseTableType]: the loop body run [n] more times. *)
Fixpoint parseTableType_loop (n : nat) (num : Z) (ext : string) : string :=
  match n with
  | O => ext
  | S n' =>
      parseTableType_loop n' (JS.sar num 8)
        (String (JS.fromCharCode (JS.and num 255)) ext)
  end.

Definition parseTableType (num : Z) : string :=
  parseTableType_loop 4 num "".

(** [serializeTableType]: the loop body run [n] more times from index [i];
    [num] is [None] once it has become [NaN]. *)
Fixpoint serializeTableType_loop (n i : nat) (num : option Z) (str : string)
  : option Z :=
  match n with
  | O => num
  | S n' =>
      serializeTableType_loop n' (S i)
        (JS.add_nan (Some (JS.shl (JS.ToInt32_nan num) 8)) (JS.charCodeAt str i))
        str
  end.

Definition serializeTableType (str : string) : option Z :=
  serializeTableType_loop 4 0 (Some 0) str.

(** A string of exactly four characters, all of them 7-bit ASCII. *)
Definition is_ascii_char (c : ascii) : bool := (N_of_ascii c <? 128)%N.

Definition is_ascii4 (s : string) : bool :=
  (String.length s =? 4)%nat && forallb is_ascii_char (list_ascii_of_string s).

(** The byte of [v] at position [k] counted from the least significant. *)
Definition byte_at (v : Z) (k : Z) : Z := (v / 2 ^ (8 * k)) mod 256.

(** A 32-bit value whose four bytes are 7-bit ASCII. *)
Definition is_packed_ascii4 (v : Z) : bool :=
  (0 <=? v) && (v <? 2 ^ 32) &&
  (byte_at v 0 <? 128) && (byte_at v 1 <? 128) &&
  (byte_at v 2 <? 128) && (byte_at v 3 <? 128).

(** The code of a character. *)
Definition code (c : ascii) : Z := Z.of_N (N_of_ascii c).

(** The packing in the words of the format: four characters, the first one
    in the most significant byte. *)
Definition pack_msb_first (a b c d : ascii) : Z :=
  code a * 2 ^ 24 + code b * 2 ^ 16 + code c * 2 ^ 8 + code d.

(** ** Buffers

    A Node [Buffer] is its list of bytes.  The readers below are the ones
    DRS.js calls directly ([slice], [toString('ascii')], [readInt32LE]) and
    the ones awestruct's [t.int32], [t.uint32] and [t.char] fields come
    down to; multi-byte integers are little-endian. *)

Definition Buffer := list byte.

Definition byte_val (b : byte) : Z := Z.of_N (Byte.to_N b).

(** [Buffer.alloc(n)]: [n] zero bytes. *)
Definition Buffer_alloc (n : nat) : Buffer := repeat x00 n.

(** [buf.slice(start, end)] for non-negative bounds; both are clamped to the
    length of the buffer. *)
Definition slice (buf : Buffer) (start end_ : nat) : Buffer :=
  take (end_ - start) (drop start buf).

(** [buf.toString('ascii')]: Node clears the top bit of every byte. *)
Definition ascii_of_buffer_byte (b : byte) : ascii :=
  ascii_of_N (N.land (Byte.to_N b) 127).

Definition toString_ascii (buf : Buffer) : string :=
  string_of_list_ascii (map ascii_of_buffer_byte buf).

(** [Buffer.from(str, 'ascii')], used to write down test payloads. *)
Definition Buffer_from (s : string) : Buffer := list_byte_of_string s.

(** [buf.readUInt32LE(offset)]; [None] is the [RangeError] of a read past
    the end. *)
Definition readUInt32LE (buf : Buffer) (offset : nat) : option Z :=
  match drop offset buf with
  | b0 :: b1 :: b2 :: b3 :: _ =>
      Some (byte_val b0 + byte_val b1 * 2 ^ 8 + byte_val b2 * 2 ^ 16
            + byte_val b3 * 2 ^ 24)
  | _ => None
  end.

(** [buf.readInt32LE(offset)] *)
Definition readInt32LE (buf : Buffer) (offset : nat) : option Z :=
  match readUInt32LE buf offset with
  | Some v => Some (JS.ToInt32 v)
  | None => None
  end.

(** ** The header *)

(** The fields [headerStruct] reads.  The three [t.char] fields are kept as
    the bytes of the field, whose count is the declared width. *)
Record Header := mkHeader {
  copyright : Buffer;
  fileVersion : Buffer;
  fileType : Buffer;
  hdr_numTables : Z;
  firstFileOffset : Z
}.

(** Width of the copyright field chosen by [headerStruct(isSwgb)]. *)
Definition copyright_width (isSwgb : bool) : nat :=
  if isSwgb then 60%nat else 40%nat.

(** [headerStruct(isSwgb)(buf)]: the fields are read one after the other. *)
Definition headerStruct (isSwgb : bool) (buf : Buffer) : option Header :=
  let w := copyright_width isSwgb in
  match readInt32LE buf (w + 16), readInt32LE buf (w + 20) with
  | Some n, Some f =>
      Some (mkHeader (slice buf 0 w) (slice buf w (w + 4))
              (slice buf (w + 4) (w + 16)) n f)
  | _, _ => None
  end.

(** The test of [onHeader]:
    [buf.slice(0, COPYRIGHT_SWGB.length).toString('ascii') === COPYRIGHT_SWGB]. *)
Definition detect_swgb (buf : Buffer) : bool :=
  String.eqb (toString_ascii (slice buf 0 (String.length COPYRIGHT_SWGB)))
    COPYRIGHT_SWGB.

(** The part of [onHeader] that turns the 84 bytes of the first read into a
    header: detect the variant, cut the buffer to 64 bytes for the base
    variant, read the struct at [fileOffset] (which is 0 here).  The result
    carries [isSWGB], the header and [buf.length], by which [fileOffset]
    advances. *)
Definition parse_header (buf : Buffer) : option (bool * Header * nat) :=
  let isSWGB := detect_swgb buf in
  let buf' := if isSWGB then buf else slice buf 0 (Z.to_nat HEADER_SIZE_AOE) in
  match headerStruct isSWGB (slice buf' 0 (length buf')) with
  | Some h => Some (isSWGB, h, length buf')
  | None => None
  end.

(** ** Files, tables and the handle *)

(** A file entry: [offset] and [size] are [null] ([None]) in a [newFile];
    [buffer] is absent on entries read from disk. *)
Record File := mkFile {
  file_id : Z;
  file_offset : option Z;
  file_size : option Z;
  file_type : string;
  file_buffer : option Buffer
}.

Record Table := mkTable {
  ext : string;
  offset : option Z;
  numFiles : Z;
  files : list File
}.

(** Table objects are shared between [drs.tables] and the closures made by
    [createFileBufferCallback], and [read] replaces [drs.tables] by a new
    array: the tables live in a store ([objects]) and are named by their
    index in it. *)
Record DRS := mkDRS {
  objects : list Table;
  tables : list nat;
  fd : option Z;
  isSWGB : option bool;
  header : option Header;
  numTables : option Z
}.

(** [new DRS(file)] *)
Definition DRS_new : DRS := mkDRS [] [] None None None None.

Definition set_objects (o : list Table) (d : DRS) : DRS :=
  mkDRS o (tables d) (fd d) (isSWGB d) (header d) (numTables d).
Definition set_tables (t : list nat) (d : DRS) : DRS :=
  mkDRS (objects d) t (fd d) (isSWGB d) (header d) (numTables d).
Definition set_fd (f : option Z) (d : DRS) : DRS :=
  mkDRS (objects d) (tables d) f (isSWGB d) (header d) (numTables d).
Definition set_numTables (n : option Z) (d : DRS) : DRS :=
  mkDRS (objects d) (tables d) (fd d) (isSWGB d) (header d) n.

(** [assign(drs, header)] after [drs.isSWGB = ...] *)
Definition set_header (sw : bool) (h : Header) (d : DRS) : DRS :=
  mkDRS (objects d) (tables d) (fd d) (Some sw) (Some h) (Some (hdr_numTables h)).

(** The tables [drs.tables] refers to, in order. *)
Definition table_list (d : DRS) : list Table :=
  omap (fun r => objects d !! r) (tables d).

(** [getFileCount] *)
Definition getFileCount (d : DRS) : Z :=
  fold_left (fun a t => a + Z.of_nat (length (files t))) (table_list d) 0.

(** [getFiles] *)
Definition getFiles (d : DRS) : list File :=
  fold_left (fun arr t => (arr ++ files t)%list) (table_list d) [].

(** [size + file.size], where a [null] size counts as 0. *)
Definition size_or_0 (f : File) : Z :=
  match file_size f with Some s => s | None => 0 end.

(** [getSize] *)
Definition getSize (d : DRS) : Z :=
  let headerSize :=
    match isSWGB d with Some true => HEADER_SIZE_SWGB | _ => HEADER_SIZE_AOE end in
  headerSize + TABLE_META_SIZE * Z.of_nat (length (tables d))
  + FILE_META_SIZE * getFileCount d
  + fold_left (fun size f => size + size_or_0 f) (getFiles d) 0.

(** ** Lookup *)

(** What [getFile] does: return an entry, return [null], or throw the
    [TypeError] of reading [.id] of an [undefined] array element. *)
Inductive lookup_result :=
| Found (f : File)
| NotFound
| LookupThrows.

(** The inner loop of [getFile] from index [i], with [n] iterations left;
    [None] when the loop ends without returning. *)
Fixpoint getFile_inner (n : nat) (i : nat) (fs : list File) (id : Z)
  : option lookup_result :=
  match n with
  | O => None
  | S n' =>
      match fs !! i with
      | None => Some LookupThrows
      | Some f =>
          if file_id f =? id then Some (Found f)
          else getFile_inner n' (S i) fs id
      end
  end.

(** The outer loop of [getFile] over the tables still to visit. *)
Fixpoint getFile_outer (ts : list Table) (id : Z) : lookup_result :=
  match ts with
  | [] => NotFound
  | t :: rest =>
      match getFile_inner (Z.to_nat (numFiles t)) 0 (files t) id with
      | Some r => r
      | None => getFile_outer rest id
      end
  end.

Definition getFile (d : DRS) (id : Z) : lookup_result :=
  getFile_outer (table_list d) id.

(** ** Classification of a file that was read ([readFile]) *)

Inductive FileInst :=
| SLPFile (buf : Buffer) (file : File)
| WAVFile (buf : Buffer) (file : File)
| PaletteFile (buf : Buffer) (file : File)
| DRSFile (buf : Buffer) (file : File).

(** [buf.slice(0, 8).toString('ascii') === 'JASC-PAL'] *)
Definition is_jasc_pal (buf : Buffer) : bool :=
  String.eqb (toString_ascii (slice buf 0 8)) "JASC-PAL".

(** The [if] chain in the callback of [readFile]. *)
Definition makeFileInst (buf : Buffer) (file : File) : FileInst :=
  if String.eqb (file_type file) "slp " then SLPFile buf file
  else if String.eqb (file_type file) "wav " then WAVFile buf file
  else if String.eqb (file_type file) "bina" && is_jasc_pal buf
       then PaletteFile buf file
  else DRSFile buf file.

(** The four outcomes under the names of the specification. *)
Inductive Kind := Sprite | Audio | Palette | Generic.

Definition kind_of (i : FileInst) : Kind :=
  match i with
  | SLPFile _ _ => Sprite
  | WAVFile _ _ => Audio
  | PaletteFile _ _ => Palette
  | DRSFile _ _ => Generic
  end.

Definition classify (tag : string) (buf : Buffer) : Kind :=
  kind_of (makeFileInst buf (mkFile 0 None None tag None)).

(** ** The builder *)

Definition newFile (type : string) (id : Z) : File :=
  mkFile id None None type None.

(** The loop of [getTable]: [table] is the variable of that name, assigned
    at every iteration before the test.  A reference without an object does
    not occur in [drs.tables] (see [inv_tables]); the loop steps over it. *)
Fixpoint getTable_loop (objs : list Table) (refs : list nat) (type : string)
    (table : option nat) : option nat :=
  match refs with
  | [] => table
  | r :: rest =>
      match objs !! r with
      | Some t =>
          if String.eqb (ext t) type then Some r
          else getTable_loop objs rest type (Some r)
      | None => getTable_loop objs rest type (Some r)
      end
  end.

(** [getTable(drs, type)]: the handle afterwards and the table returned. *)
Definition getTable (d : DRS) (type : string) : DRS * nat :=
  match getTable_loop (objects d) (tables d) type None with
  | Some r => (d, r)
  | None =>
      let r := length (objects d) in
      let d1 := set_objects (objects d ++ [mkTable type None 0 []])%list d in
      let d2 := set_tables (tables d1 ++ [r])%list d1 in
      (set_numTables (Some (Z.of_nat (length (tables d2)))) d2, r)
  end.

(** [file.buffer = buffer; file.size = buffer.byteLength] *)
Definition with_buffer (file : File) (buffer : Buffer) : File :=
  mkFile (file_id file) (file_offset file) (Some (Z.of_nat (length buffer)))
    (file_type file) (Some buffer).

(** [table.files.push(file); table.numFiles = table.files.length] *)
Definition push_file (file : File) (t : Table) : Table :=
  let fs := (files t ++ [file])%list in
  mkTable (ext t) (offset t) (Z.of_nat (length fs)) fs.

(** ** The directory readers *)

(** [t.array(n, tableStruct.transform(...))(buf)] from byte [off]: [n]
    records of 12 bytes, each with an empty [files]; [None] is the
    [RangeError] of a record past the end of [buf]. *)
Fixpoint read_tables (n : nat) (buf : Buffer) (off : nat) : option (list Table) :=
  match n with
  | O => Some []
  | S n' =>
      match readUInt32LE buf off, readInt32LE buf (off + 4),
            readInt32LE buf (off + 8) with
      | Some e, Some o, Some nf =>
          match read_tables n' buf (off + 12) with
          | Some ts => Some (mkTable (parseTableType e) (Some o) nf [] :: ts)
          | None => None
          end
      | _, _, _ => None
      end
  end.

(** The [for] loop of [onTables] for one table: the files pushed, the
    offset reached and whether the loop ran to its end ([false]: a
    [readInt32LE] threw). *)
Fixpoint read_files (n : nat) (buf : Buffer) (off : nat) (type : string)
  : list File * nat * bool :=
  match n with
  | O => ([], off, true)
  | S n' =>
      match readInt32LE buf off, readInt32LE buf (off + 4),
            readInt32LE buf (off + 8) with
      | Some i, Some o, Some s =>
          let '(fs, off', ok) := read_files n' buf (off + 12) type in
          (mkFile i (Some o) (Some s) type None :: fs, off', ok)
      | _, _, _ => ([], off, false)
      end
  end.

(** [table.files.push(file)] for each file of the loop; [numFiles] stays. *)
Definition push_files (fs : list File) (t : Table) : Table :=
  mkTable (ext t) (offset t) (numFiles t) (files t ++ fs)%list.

(** [drs.tables.forEach(...)] of [onTables]: the table objects afterwards
    and whether the loop ran to its end.  A throw leaves what was pushed
    before it in place. *)
Fixpoint onTables_loop (refs : list nat) (objs : list Table) (buf : Buffer)
    (off : nat) : list Table * bool :=
  match refs with
  | [] => (objs, true)
  | r :: rest =>
      match objs !! r with
      | None => onTables_loop rest objs buf off
      | Some t =>
          let '(fs, off', ok) :=
            read_files (Z.to_nat (numFiles t)) buf off (ext t) in
          let objs' := alter (push_files fs) r objs in
          if ok then onTables_loop rest objs' buf off' else (objs', false)
      end
  end.

(** ** The file system *)

(** The buffer a completed [fs.read(fd, Buffer.alloc(len), 0, len, pos, cb)]
    hands to its callback: [len] bytes, those the file has from [pos] on and
    zeroes after them.  [bytesRead] is not looked at by DRS.js. *)
Definition fs_read (disk : Buffer) (len pos : nat) : Buffer :=
  let got := take len (drop pos disk) in
  (got ++ Buffer_alloc (len - length got))%list.

(** [buffer.kMaxLength], the largest size a [Buffer] can have.  It depends
    on the Node release and the architecture; this is the value of the
    64-bit releases DRS.js was written for. *)
Definition kMaxLength : Z := 2 ^ 31 - 1.

(** [Buffer.alloc(n)] throws unless [n] is a number from 0 to
    [kMaxLength]. *)
Definition alloc_len (n : option Z) : option nat :=
  match n with
  | Some v => if (v <? 0) || (kMaxLength <? v) then None else Some (Z.to_nat v)
  | None => None
  end.

(** The bytes a [fs.createReadStream] with [start] and [end] yields. *)
Definition fs_stream (disk : Buffer) (start end_ : nat) : Buffer :=
  take (S end_ - start) (drop start disk).

(** ** Callbacks and the event loop

    DRS.js is written in continuation-passing style over asynchronous
    file-system calls.  The closures it builds are a datatype; the calls it
    has issued and that have not completed yet are the [queue] of the
    [World]; what reaches the caller (its callbacks being invoked, events
    emitted on a stream, an exception) is appended to the [log].  A callback
    of the caller, or a listener for ['meta'] on a writable stream, runs
    inside DRS.js and can look at the handle: what it finds there at that
    moment is kept in [seen]. *)

Inductive callback :=
| cb_user (k : nat)
    (** a callback passed in by the caller *)
| cb_read_after_open (cb : callback)
    (** [function (e) { if (e) cb(e) else drs.read(cb) }] *)
| cb_readFile_retry (id : Z) (cb : callback)
    (** [function (e) { if (e) cb(e) else drs.readFile(id, cb) }] *)
| cb_onread (id : Z) (stream : nat)
    (** [onread] of [createReadStream] *)
| cb_onfinish (stream : nat).
    (** [onfinish] of [createWriteStream] *)

(** The arguments a callback is invoked with. *)
Inductive result :=
| r_err
| r_ok
| r_fd (n : Z)
| r_file (f : File)
| r_inst (i : FileInst).

Inductive event :=
| ev_callback (k : nat) (r : result)
| ev_stream_error (stream : nat)
| ev_stream_meta (stream : nat) (f : option File)
| ev_stream_data (stream : nat) (b : Buffer)
| ev_throw.

(** The [data] argument of [putFile]. *)
Inductive payload :=
| data_buffer (b : Buffer)
| data_stream (chunks : list Buffer)
| data_other.

Inductive pump_source :=
| from_buffer (b : Buffer)
| from_disk (start end_ : nat).

Inductive pending :=
| p_open (cb : callback)
    (** [fs.open] issued by [open(cb)] *)
| p_header (f : Z) (cb : callback)
    (** the [fs.read] whose callback is [onHeader] *)
| p_tableInfo (f : Z) (fileOffset len : nat) (cb : callback)
    (** the [fs.read] whose callback is [onTableInfo] *)
| p_tables (f : Z) (fileOffset len : nat) (cb : callback)
    (** the [fs.read] whose callback is [onTables] *)
| p_file (f : Z) (file : File) (len : nat) (pos : option Z) (cb : callback)
    (** the [fs.read] of [readFile] *)
| p_timeout (file : File) (table : nat) (data : Buffer) (cb : callback)
    (** [setTimeout(function () { onbuffer(null, data) }, 0)] *)
| p_concat (file : File) (table : nat) (chunks : list Buffer) (cb : callback)
    (** [concat(data, onbuffer)] *)
| p_writer (file : File) (table : nat) (stream : nat) (data : list Buffer)
    (** the writable stream of [createWriteStream] and its [data] array *)
| p_pump (stream : nat) (src : pump_source).
    (** [pump(source, stream)] of [createReadStream] *)

(** Who is called: a callback passed in by the caller, or the listeners
    for ['meta'] on a writable stream. *)
Inductive observer :=
| by_callback (k : nat)
| by_stream (stream : nat).

(** What the code of the caller finds when it is called: its argument, and
    the table objects as they are at that moment. *)
Record observation := mkObs {
  obs_who : observer;
  obs_result : result;
  obs_objects : list Table
}.

Record World := mkWorld {
  drs : DRS;
  disk : Buffer;          (** the bytes of the file [drs.filename] names *)
  positions : list nat;   (** file position of each descriptor handed out *)
  queue : list pending;
  log : list event;
  seen : list observation
}.

Definition World_new (disk : Buffer) : World := mkWorld DRS_new disk [] [] [] [].

Definition set_drs (d : DRS) (w : World) : World :=
  mkWorld d (disk w) (positions w) (queue w) (log w) (seen w).
Definition set_positions (p : list nat) (w : World) : World :=
  mkWorld (drs w) (disk w) p (queue w) (log w) (seen w).
Definition set_queue (q : list pending) (w : World) : World :=
  mkWorld (drs w) (disk w) (positions w) q (log w) (seen w).
Definition emit (e : event) (w : World) : World :=
  mkWorld (drs w) (disk w) (positions w) (queue w) (log w ++ [e])%list (seen w).
(** The code of the caller runs now, with argument [r]. *)
Definition observe (who : observer) (r : result) (w : World) : World :=
  mkWorld (drs w) (disk w) (positions w) (queue w) (log w)
    (seen w ++ [mkObs who r (objects (drs w))])%list.
Definition schedule (p : pending) (w : World) : World :=
  set_queue (queue w ++ [p])%list w.

(** Descriptors are numbered from 3 on. *)
Definition fd_index (f : Z) : nat := Z.to_nat (f - 3).

(** [read(cb)] up to its first asynchronous call. *)
Definition read (cb : callback) (w : World) : World :=
  match fd (drs w) with
  | None => schedule (p_open (cb_read_after_open cb)) w
  | Some f => schedule (p_header f cb) w
  end.

(** [readFile(id, cb)] up to its [fs.read], given what invoking [cb]
    does.  [Buffer.alloc] throws on a size that is not a number from 0 to
    [kMaxLength] and [fs.read] on a descriptor that is [null]. *)
Definition readFile_body (call_cb : result -> World -> World) (id : Z)
    (cb : callback) (w : World) : World :=
  if JS.falsy (numTables (drs w)) then read (cb_readFile_retry id cb) w
  else
    match getFile (drs w) id with
    | LookupThrows => emit ev_throw w
    | NotFound => call_cb r_err w
    | Found file =>
        match alloc_len (file_size file), fd (drs w) with
        | Some len, Some f => schedule (p_file f file len (file_offset file) cb) w
        | _, _ => emit ev_throw w
        end
    end.

(** [onread(err)] of [createReadStream(id)].  [listening] tells whether the
    stream has a listener for ['error']: it has none when [onread] runs
    inside [createReadStream], before the stream is returned, and it is
    taken to have one when [onread] runs later, as the callback of [read].
    An ['error'] event nobody listens for is thrown by [emit].  With a
    listener, when the id is not found there is no [return] after the
    ['error'] event: ['meta'] is emitted with [null] and reading
    [file.buffer] throws.  [fs.createReadStream] throws on a [start] that
    is negative or beyond [end]. *)
Definition onread (listening : bool) (id : Z) (stream : nat) (r : result)
    (w : World) : World :=
  match r with
  | r_err => if listening then emit (ev_stream_error stream) w else emit ev_throw w
  | _ =>
      match getFile (drs w) id with
      | LookupThrows => emit ev_throw w
      | NotFound =>
          if listening
          then emit ev_throw
                 (emit (ev_stream_meta stream None) (emit (ev_stream_error stream) w))
          else emit ev_throw w
      | Found file =>
          let w1 := emit (ev_stream_meta stream (Some file)) w in
          match file_buffer file with
          | Some b => schedule (p_pump stream (from_buffer b)) w1
          | None =>
              match file_offset file, file_size file with
              | Some o, Some s =>
                  if (0 <=? o) && (o <=? o + s - 1)
                  then schedule
                         (p_pump stream (from_disk (Z.to_nat o) (Z.to_nat (o + s - 1))))
                         w1
                  else emit ev_throw w1
              | _, _ => emit ev_throw w1
              end
          end
      end
  end.

(** Invoking a callback. *)
Fixpoint invoke (cb : callback) (r : result) (w : World) : World :=
  match cb with
  | cb_user k => observe (by_callback k) r (emit (ev_callback k r) w)
  | cb_read_after_open cb' =>
      match r with
      | r_err => invoke cb' r_err w
      | _ => read cb' w
      end
  | cb_readFile_retry id cb' =>
      match r with
      | r_err => invoke cb' r_err w
      | _ => readFile_body (invoke cb') id cb' w
      end
  | cb_onread id stream => onread true id stream r w
  | cb_onfinish stream =>
      match r with
      | r_err => emit (ev_stream_error stream) w
      | r_file f =>
          observe (by_stream stream) r (emit (ev_stream_meta stream (Some f)) w)
      | _ => emit (ev_stream_meta stream None) w
      end
  end.

Definition readFile (id : Z) (cb : callback) (w : World) : World :=
  readFile_body (invoke cb) id cb w.

(** [createReadStream(id)] *)
Definition createReadStream (id : Z) (stream : nat) (w : World) : World :=
  if JS.falsy (numTables (drs w)) then read (cb_onread id stream) w
  else onread false id stream r_ok w.

(** [onbuffer(err, buffer)] made by [createFileBufferCallback(file, table, cb)];
    [None] stands for a call with an error. *)
Definition onbuffer (file : File) (table : nat) (cb : callback)
    (buffer : option Buffer) (w : World) : World :=
  match buffer with
  | None => invoke cb r_err w
  | Some b =>
      let file' := with_buffer file b in
      let d := drs w in
      invoke cb (r_file file')
        (set_drs (set_objects (alter (push_file file') table (objects d)) d) w)
  end.

(** [putFile(type, id, data, cb)] *)
Definition putFile (type : string) (id : Z) (data : payload) (cb : callback)
    (w : World) : World :=
  let file := newFile type id in
  let '(d, table) := getTable (drs w) type in
  let w1 := set_drs d w in
  match data with
  | data_buffer b => schedule (p_timeout file table b cb) w1
  | data_stream chunks => schedule (p_concat file table chunks cb) w1
  | data_other => emit ev_throw w1
  end.

(** [createWriteStream(type, id)] *)
Definition createWriteStream (type : string) (id : Z) (stream : nat)
    (w : World) : World :=
  let file := newFile type id in
  let '(d, table) := getTable (drs w) type in
  schedule (p_writer file table stream []) (set_drs d w).

(** *** Completion of the asynchronous calls

    Each function below is the callback DRS.js gave to the call, run when
    the call completes; [err] tells whether the call failed. *)

(** The callback [fs.open] gets in [open(cb)]. *)
Definition onOpen (cb : callback) (err : bool) (w : World) : World :=
  if err then invoke cb r_err w
  else
    let f := 3 + Z.of_nat (length (positions w)) in
    invoke cb (r_fd f)
      (set_drs (set_fd (Some f) (drs w))
         (set_positions (positions w ++ [0%nat])%list w)).

(** [TABLE_META_SIZE * drs.numTables] and the like: [NaN] when the property
    is [undefined]. *)
Definition times (c : Z) (n : option Z) : option Z :=
  match n with Some v => Some (c * v) | None => None end.

Definition onHeader (f : Z) (cb : callback) (err : bool) (w : World) : World :=
  if err then invoke cb r_err w
  else
    let buf := fs_read (disk w) (Z.to_nat HEADER_SIZE_SWGB) 0 in
    match parse_header buf with
    | None => emit ev_throw w
    | Some (sw, h, buflen) =>
        let w1 := set_drs (set_header sw h (drs w)) w in
        let fileOffset := (0 + buflen)%nat in
        match alloc_len (times TABLE_META_SIZE (numTables (drs w1))) with
        | Some len => schedule (p_tableInfo f fileOffset len cb) w1
        | None => emit ev_throw w1
        end
    end.

(** The count [t.array(drs.numTables, ...)] loops to. *)
Definition array_count (n : option Z) : nat :=
  match n with Some v => Z.to_nat v | None => 0%nat end.

Definition onTableInfo (f : Z) (fileOffset len : nat) (cb : callback)
    (err : bool) (w : World) : World :=
  if err then invoke cb r_err w
  else
    let buf := fs_read (disk w) len fileOffset in
    match read_tables (array_count (numTables (drs w))) buf 0 with
    | None => emit ev_throw w
    | Some ts =>
        let d := drs w in
        let d1 :=
          set_tables (seq (length (objects d)) (length ts))
            (set_objects (objects d ++ ts)%list d) in
        let w1 := set_drs d1 w in
        let totalFiles := fold_left (fun total t => total + numFiles t) ts 0 in
        let fileOffset' := (fileOffset + length buf)%nat in
        match alloc_len (Some (FILE_META_SIZE * totalFiles)) with
        | Some len' => schedule (p_tables f fileOffset' len' cb) w1
        | None => emit ev_throw w1
        end
    end.

Definition onTables (f : Z) (fileOffset len : nat) (cb : callback)
    (err : bool) (w : World) : World :=
  if err then invoke cb r_err w
  else
    let buf := fs_read (disk w) len fileOffset in
    let d := drs w in
    let '(objs, ok) := onTables_loop (tables d) (objects d) buf 0 in
    let w1 := set_drs (set_objects objs d) w in
    if ok then invoke cb r_ok w1 else emit ev_throw w1.

(** The callback of the [fs.read] in [readFile].  A [position] that is
    [null] or negative makes the read start at the descriptor's own file
    position, which it then advances. *)
Definition onFileRead (f : Z) (file : File) (len : nat) (pos : option Z)
    (cb : callback) (err : bool) (w : World) : World :=
  if err then invoke cb r_err w
  else
    let positioned :=
      match pos with Some p => if 0 <=? p then Some (Z.to_nat p) else None
                   | None => None end in
    match positioned with
    | Some p => invoke cb (r_inst (makeFileInst (fs_read (disk w) len p) file)) w
    | None =>
        let cur := default 0%nat (positions w !! fd_index f) in
        let bytesRead := length (take len (drop cur (disk w))) in
        invoke cb (r_inst (makeFileInst (fs_read (disk w) len cur) file))
          (set_positions (<[fd_index f := (cur + bytesRead)%nat]> (positions w)) w)
    end.

Definition onPump (stream : nat) (src : pump_source) (err : bool) (w : World)
  : World :=
  if err then emit (ev_stream_error stream) w
  else
    match src with
    | from_buffer b => emit (ev_stream_data stream b) w
    | from_disk s e => emit (ev_stream_data stream (fs_stream (disk w) s e)) w
    end.

Definition complete (p : pending) (err : bool) (w : World) : World :=
  match p with
  | p_open cb => onOpen cb err w
  | p_header f cb => onHeader f cb err w
  | p_tableInfo f fileOffset len cb => onTableInfo f fileOffset len cb err w
  | p_tables f fileOffset len cb => onTables f fileOffset len cb err w
  | p_file f file len pos cb => onFileRead f file len pos cb err w
  | p_timeout file table data cb => onbuffer file table cb (Some data) w
  | p_concat file table chunks cb =>
      onbuffer file table cb (if err then None else Some (concat chunks)) w
  | p_writer file table stream data =>
      onbuffer file table (cb_onfinish stream) (Some (concat data)) w
  | p_pump stream src => onPump stream src err w
  end.

(** *** What can happen to a handle *)

Inductive action :=
| a_open (k : nat)
| a_read (k : nat)
| a_readFile (id : Z) (k : nat)
| a_createReadStream (id : Z) (stream : nat)
| a_putFile (type : string) (id : Z) (data : payload) (k : nat)
| a_createWriteStream (type : string) (id : Z) (stream : nat)
| a_write (i : nat) (chunk : Buffer)
    (** [stream.write(chunk)] on the writer at position [i] of the queue *)
| a_complete (i : nat) (err : bool).
    (** the call at position [i] of the queue completes *)

Definition step (a : action) (w : World) : World :=
  match a with
  | a_open k => schedule (p_open (cb_user k)) w
  | a_read k => read (cb_user k) w
  | a_readFile id k => readFile id (cb_user k) w
  | a_createReadStream id stream => createReadStream id stream w
  | a_putFile type id data k => putFile type id data (cb_user k) w
  | a_createWriteStream type id stream => createWriteStream type id stream w
  | a_write i chunk =>
      match queue w !! i with
      | Some (p_writer file table stream data) =>
          set_queue (<[i := p_writer file table stream (data ++ [chunk])%list]> (queue w)) w
      | _ => w
      end
  | a_complete i err =>
      match queue w !! i with
      | Some p => complete p err (set_queue (delete i (queue w)) w)
      | None => w
      end
  end.

(** Running a list of actions, the first one first. *)
Definition run (acts : list action) (w : World) : World :=
  fold_left (fun w a => step a w) acts w.

(** The worlds a handle on a file with bytes [d] can be in. *)
Inductive reachable (d : Buffer) : World -> Prop :=
| reach_new : reachable d (World_new d)
| reach_step a w : reachable d w -> reachable d (step a w).

(** *** Directory loads in flight *)

(** A pending call that belongs to a [read]: the [fs.open] a [read] waits
    for, or one of its three [fs.read]s. *)
Definition is_load (p : pending) : bool :=
  match p with
  | p_open (cb_read_after_open _) => true
  | p_header _ _ | p_tableInfo _ _ _ _ | p_tables _ _ _ _ => true
  | _ => false
  end.

Definition loads_in_flight (w : World) : nat :=
  length (filter (fun p => is_load p = true) (queue w)).

(** ** Variant detection in the words of the specification

    The specification probes a region of the size of the larger variant's
    copyright field, 60 bytes, and compares it as text with the magic
    string; as text, the NUL bytes that pad a fixed-width field do not
    count. *)

Fixpoint strip_nul (s : string) : string :=
  match s with
  | EmptyString => EmptyString
  | String c rest =>
      match strip_nul rest with
      | EmptyString => if Ascii.eqb c zero then EmptyString else String c EmptyString
      | rest' => String c rest'
      end
  end.

Definition spec_detect_swgb (buf : Buffer) : bool :=
  String.eqb (strip_nul (toString_ascii (slice buf 0 60))) COPYRIGHT_SWGB.

(** ** Sample archives *)

(** [buf.writeInt32LE(v)] *)
Definition int32LE (v : Z) : Buffer :=
  map (fun k => default x00 (Byte.of_N (Z.to_N (byte_at (v mod 2 ^ 32) k))))
    [0; 1; 2; 3].

(** A text field of width [n]: the text, then NUL bytes. *)
Definition text_field (n : nat) (s : string) : Buffer :=
  take n (Buffer_from s ++ Buffer_alloc n)%list.

(** A header of the base variant. *)
Definition aoe_header (numTables firstFileOffset : Z) : Buffer :=
  (text_field 40 "Copyright (c) 1997 Ensemble Studios." ++ text_field 4 "1.00"
   ++ text_field 12 "tribe" ++ int32LE numTables ++ int32LE firstFileOffset)%list.

(** A header of the larger variant whose copyright field holds [text]. *)
Definition swgb_header (text : string) (numTables firstFileOffset : Z) : Buffer :=
  (text_field 60 text ++ text_field 4 "1.00" ++ text_field 12 "swbg"
   ++ int32LE numTables ++ int32LE firstFileOffset)%list.

(** The archive with no table: 64 bytes. *)
Definition empty_archive : Buffer := aoe_header 0 64.

(** One table ["bina"] with one file, id 7, of five bytes. *)
Definition sample_archive : Buffer :=
  (aoe_header 1 88
   ++ int32LE 1651076705 ++ int32LE 76 ++ int32LE 1
   ++ int32LE 7 ++ int32LE 88 ++ int32LE 5
   ++ Buffer_from "hello")%list.

(** A header whose 60-byte copyright field starts with the magic string and
    goes on with other text. *)
Definition long_copyright_header : Buffer :=
  swgb_header (COPYRIGHT_SWGB ++ "ABCDEF")%string 0 84.

Definition hello : Buffer := Buffer_from "hello".

(** A handle with two tables; id 7 occurs in both. *)
Definition sample_drs : DRS :=
  mkDRS
    [mkTable "slp " (Some 88) 2
       [mkFile 3 (Some 124) (Some 10) "slp " None;
        mkFile 7 (Some 134) (Some 20) "slp " None];
     mkTable "bina" (Some 112) 1
       [mkFile 7 (Some 154) (Some 5) "bina" None]]
    [0%nat; 1%nat] (Some 3) (Some false) None (Some 2).

(** A builder on which [putFile('slp ', 1, <hello>, cb)] has completed. *)
Definition builder_with_slp : World :=
  run [a_putFile "slp " 1 (data_buffer hello) 0%nat; a_complete 0 false]
    (World_new []).

(** A handle on [sample_archive], never opened, on which
    [putFile('bina', 1, <hello>, cb)] has completed. *)
Definition unopened_with_pending : World :=
  run [a_putFile "bina" 1 (data_buffer hello) 0%nat; a_complete 0 false]
    (World_new sample_archive).

(** The same after [open]. *)
Definition opened_with_pending : World :=
  run [a_open 9%nat; a_complete 0 false;
       a_putFile "bina" 1 (data_buffer hello) 0%nat; a_complete 0 false]
    (World_new sample_archive).

(** The entry those two [putFile] calls stored. *)
Definition pending_entry : File :=
  mkFile 1 None (Some 5) "bina" (Some hello).

(** ** Invariants *)

(** The invariant the specification gives for a table: the stored count is
    the number of entries, and every entry carries the tag of the table. *)
Definition table_invariant (t : Table) : Prop :=
  numFiles t = Z.of_nat (length (files t)) /\
  Forall (fun f => file_type f = ext t) (files t).

(** The first half alone, for all the tables of a handle. *)
Definition counts_agree (d : DRS) : Prop :=
  Forall (fun t => numFiles t = Z.of_nat (length (files t))) (table_list d).

(** The size of an entry is set, and it is the length of the payload the
    entry holds, when it holds one. *)
Definition size_resolved (f : File) : Prop :=
  (exists s, file_size f = Some s) /\
  (forall b, file_buffer f = Some b -> file_size f = Some (Z.of_nat (length b))).

(** An entry that went through [onbuffer]. *)
Definition completed (f : File) : Prop :=
  exists b, file_buffer f = Some b /\ file_size f = Some (Z.of_nat (length b)).

(** The entry is in the [files] of some table object. *)
Definition stored_in (f : File) (objs : list Table) : Prop :=
  exists t, t ∈ objs /\ f ∈ files t.

Definition heap_ok (objs : list Table) : Prop :=
  forall t f, t ∈ objs -> f ∈ files t -> size_resolved f.

(** What was handed to the caller so far is stored and has its size. *)
Definition event_ok (objs : list Table) (e : event) : Prop :=
  match e with
  | ev_callback _ (r_file f) => completed f /\ stored_in f objs
  | ev_stream_meta _ (Some f) => size_resolved f /\ stored_in f objs
  | _ => True
  end.

(** The table a pending call will push its entry on. *)
Definition pending_table (p : pending) : option nat :=
  match p with
  | p_timeout _ t _ _ | p_concat _ t _ _ | p_writer _ t _ _ => Some t
  | _ => None
  end.

Definition pending_ok (objs : list Table) (p : pending) : Prop :=
  forall t, pending_table p = Some t -> (t < length objs)%nat.

(** Table objects are never dropped and never lose an entry. *)
Definition grows (objs objs' : list Table) : Prop :=
  (length objs <= length objs')%nat /\
  forall f, stored_in f objs -> stored_in f objs'.

(** When the code of the caller was handed an entry, the entry went through
    [onbuffer] and was in a table already. *)
Definition seen_ok (o : observation) : Prop :=
  match obs_result o with
  | r_file f => completed f /\ stored_in f (obs_objects o)
  | _ => True
  end.

(** The callback a pending [putFile] ends in is the caller's. *)
Definition pending_caller (p : pending) : Prop :=
  match p with
  | p_timeout _ _ _ cb | p_concat _ _ _ cb => exists k, cb = cb_user k
  | _ => True
  end.

(** What holds in every world a handle can be in. *)
Record Inv (w : World) : Prop := mkInv {
  inv_heap : heap_ok (objects (drs w));
  inv_log : Forall (event_ok (objects (drs w))) (log w);
  inv_tables : Forall (fun r => (r < length (objects (drs w)))%nat) (tables (drs w));
  inv_queue : Forall (pending_ok (objects (drs w))) (queue w);
  inv_seen : Forall seen_ok (seen w);
  inv_callers : Forall pending_caller (queue w)
}.



(** The argument of a callback about to be invoked is fit for the log. *)
Definition result_ok (objs : list Table) (r : result) : Prop :=
  match r with
  | r_file f => completed f /\ stored_in f objs
  | _ => True
  end.

(** The actions of a builder: entries are added and the pending calls
    complete; nothing is read from disk. *)
Definition is_builder_action (a : action) : bool :=
  match a with
  | a_putFile _ _ _ _ | a_createWriteStream _ _ _ | a_write _ _
  | a_complete _ _ => true
  | _ => false
  end.

Inductive built : World -> Prop :=
| built_new : built (World_new [])
| built_step a w : built w -> is_builder_action a = true -> built (step a w).

(** The calls a builder has pending. *)
Definition builder_pending (p : pending) : Prop :=
  match p with
  | p_timeout _ _ _ (cb_user _) | p_concat _ _ _ (cb_user _)
  | p_writer _ _ _ _ => True
  | _ => False
  end.

(** ** The earlier directory layout

    An earlier DRS.js reads a table record as one byte, [unknownByte],
    followed by a three-character [ext] stored in reverse, and tells the
    kinds of file apart by that three-character [ext]. *)

Module Legacy.

(** [unknownByteMap]; [None] for a key it does not have. *)
Definition unknownByteMap (ext : string) : option Z :=
  if String.eqb ext "bin" then Some 97
  else if String.eqb ext "slp" then Some 32
  else if String.eqb ext "wav" then Some 32
  else None.

(** [str.split('').reverse().join('')] *)
Definition reverse (str : string) : string :=
  string_of_list_ascii (rev (list_ascii_of_string str)).

(** awestruct's [t.char(n)] at byte [off], on 7-bit text. *)
Definition char (n : nat) (buf : Buffer) (off : nat) : string :=
  toString_ascii (slice buf off (off + n)).

Record Table := mkTable {
  unknownByte : Z;
  ext : string;
  offset : Z;
  numFiles : Z;
  files : list File
}.

(** [tableStruct.transform(function (tab) { tab.files = []; return tab })]
    on the record at byte [off]; [None] is the [RangeError] of a record past
    the end of [buf]. *)
Definition tableStruct (buf : Buffer) (off : nat) : option Table :=
  match buf !! off, readInt32LE buf (off + 4), readInt32LE buf (off + 8) with
  | Some u, Some o, Some n =>
      Some (mkTable (byte_val u) (reverse (char 3 buf (off + 1))) o n [])
  | _, _, _ => None
  end.

(** The [if] chain in the callback of the earlier [readFile]. *)
Definition makeFileInst (buf : Buffer) (file : File) : FileInst :=
  if String.eqb (file_type file) "slp" then SLPFile buf file
  else if String.eqb (file_type file) "wav" then WAVFile buf file
  else if String.eqb (file_type file) "bin" && is_jasc_pal buf
       then PaletteFile buf file
  else DRSFile buf file.

End Legacy.

(** The three bytes of the [ext] of a table record are 7-bit. *)
Definition ext_7bit (buf : Buffer) (off : nat) : bool :=
  forallb (fun b => (Byte.to_N b <? 128)%N) (slice buf (off + 1) (off + 4)).

(** ** More sample worlds *)

(** A load of the sample archive that has read the header and the table
    directory and waits for the file directory. *)
Definition loading_world : World :=
  run [a_read 0%nat; a_complete 0 false; a_complete 0 false; a_complete 0 false]
    (World_new sample_archive).

(** A [readFile] on the archive without tables, after its [open]. *)
Definition retrying_world : World :=
  run [a_readFile 7 0%nat; a_complete 0 false] (World_new empty_archive).

(** The sample archive after a complete [read]. *)
Definition loaded_world : World :=
  run [a_complete 0 false] loading_world.

(** A builder with a [putFile] of a stream of two chunks pending. *)
Definition builder_with_stream : World :=
  step (a_putFile "wav " 2 (data_stream [hello; hello]) 1%nat) builder_with_slp.

(** The entry a pending call of the builder stores when it completes
    without an error. *)
Definition pending_entry_of (p : pending) : option File :=
  match p with
  | p_timeout file _ data _ => Some (with_buffer file data)
  | p_concat file _ chunks _ => Some (with_buffer file (concat chunks))
  | p_writer file _ _ data => Some (with_buffer file (concat data))
  | _ => None
  end.

(** Every table of the list exists, has no entry yet and a count that is
    not negative: the tables as [onTableInfo] leaves them when the counts
    of the directory make sense. *)
Definition awaiting_files (d : DRS) : bool :=
  forallb
    (fun r =>
       match objects d !! r with
       | Some t =>
           match files t with [] => 0 <=? numFiles t | _ :: _ => false end
       | None => false
       end)
    (tables d).

(** The number of file records the counts of the tables announce. *)
Fixpoint declared_files (objs : list Table) (refs : list nat) : nat :=
  match refs with
  | [] => 0%nat
  | r :: rest =>
      match objs !! r with
      | Some t => (Z.to_nat (numFiles t) + declared_files objs rest)%nat
      | None => declared_files objs rest
      end
  end.

(** ** Payloads and worlds for the classification and the lookup *)

(** A byte with its top bit cleared: what decoding as ['ascii'] keeps of
    it. *)
Definition clear_top_bit (b : byte) : byte :=
  default x00 (Byte.of_N (N.land (Byte.to_N b) 127)).

(** The start of a palette file. *)
Definition palette_payload : Buffer := Buffer_from "JASC-PAL 0100 256".

(** The bytes [ca c1 d3 c3 ad d0 c1 cc]: those of [JASC-PAL], each with its
    top bit set. *)
Definition top_bit_payload : Buffer := [xca; xc1; xd3; xc3; xad; xd0; xc1; xcc].

(** A load of the sample archive during which an entry is added: the table
    directory has been read, [putFile('bina', 99, <hello>, cb)] is called
    and completes, and then the file directory arrives. *)
Definition interleaved_world : World :=
  run [a_putFile "bina" 99 (data_buffer hello) 1%nat; a_complete 1 false;
       a_complete 0 false]
    loading_world.

(** * Properties *)

(** ** The table-type codec *)

Section Int32.

Lemma ToInt32_small x : - 2 ^ 31 <= x < 2 ^ 31 -> JS.ToInt32 x = x.
Proof.
  intros H. unfold JS.ToInt32. rewrite Z.mod_small by lia. lia.
Qed.

Lemma shl8_small x : 0 <= x < 2 ^ 23 -> JS.shl x 8 = x * 256.
Proof.
  intros H. unfold JS.shl.
  rewrite (ToInt32_small x) by lia.
  rewrite Z.shiftl_mul_pow2 by lia.
  change (2 ^ 8) with 256. apply ToInt32_small. lia.
Qed.

Lemma and255_small x : 0 <= x < 2 ^ 31 -> JS.and x 255 = x mod 256.
Proof.
  intros H. unfold JS.and.
  rewrite (ToInt32_small x) by lia.
  rewrite (ToInt32_small 255) by lia.
  change 255 with (Z.ones 8). rewrite Z.land_ones by lia. reflexivity.
Qed.

Lemma sar8_small x : 0 <= x < 2 ^ 31 -> JS.sar x 8 = x / 256.
Proof.
  intros H. unfold JS.sar.
  rewrite (ToInt32_small x) by lia.
  rewrite Z.shiftr_div_pow2 by lia. reflexivity.
Qed.

End Int32.

Lemma code_range c : 0 <= code c < 256.
Proof.
  unfold code. pose proof (N_ascii_bounded c). lia.
Qed.

Lemma fromCharCode_code c : JS.fromCharCode (code c) = c.
Proof.
  unfold JS.fromCharCode, code. rewrite N2Z.id. apply ascii_N_embedding.
Qed.

Lemma code_fromCharCode n : 0 <= n < 256 -> code (JS.fromCharCode n) = n.
Proof.
  intros H. unfold JS.fromCharCode, code.
  rewrite N_ascii_embedding by lia. lia.
Qed.

Lemma parseTableType_bytes v :
  0 <= v < 2 ^ 31 ->
  parseTableType v =
  String (JS.fromCharCode (byte_at v 3))
    (String (JS.fromCharCode (byte_at v 2))
       (String (JS.fromCharCode (byte_at v 1))
          (String (JS.fromCharCode (byte_at v 0)) ""))).
Proof.
  intros H. unfold parseTableType, parseTableType_loop, byte_at.
  assert (H1 : 0 <= v / 256 < 2 ^ 23).
  { split; [apply Z.div_pos; lia | apply Z.div_lt_upper_bound; lia]. }
  assert (H2 : 0 <= v / 256 / 256 < 2 ^ 15).
  { split; [apply Z.div_pos; lia | apply Z.div_lt_upper_bound; lia]. }
  assert (H3 : 0 <= v / 256 / 256 / 256 < 2 ^ 7).
  { split; [apply Z.div_pos; lia | apply Z.div_lt_upper_bound; lia]. }
  rewrite (and255_small v), (sar8_small v) by lia.
  rewrite (and255_small (v / 256)), (sar8_small (v / 256)) by lia.
  rewrite (and255_small (v / 256 / 256)), (sar8_small (v / 256 / 256)) by lia.
  rewrite (and255_small (v / 256 / 256 / 256)) by lia.
  change (2 ^ (8 * 0)) with 1. rewrite Z.div_1_r.
  change (2 ^ (8 * 1)) with 256.
  change (2 ^ (8 * 2)) with (256 * 256).
  change (2 ^ (8 * 3)) with (256 * 256 * 256).
  rewrite <- !Z.div_div by lia. reflexivity.
Qed.

Lemma serializeTableType_chars a b c d :
  code a < 128 ->
  serializeTableType (String a (String b (String c (String d "")))) =
  Some (pack_msb_first a b c d).
Proof.
  intros Ha.
  pose proof (code_range a). pose proof (code_range b).
  pose proof (code_range c). pose proof (code_range d).
  unfold serializeTableType, serializeTableType_loop, JS.charCodeAt,
    JS.add_nan, JS.ToInt32_nan. cbn [String.get].
  fold (code a) (code b) (code c) (code d).
  rewrite (shl8_small 0) by lia.
  rewrite (shl8_small (0 * 256 + code a)) by lia.
  rewrite (shl8_small ((0 * 256 + code a) * 256 + code b)) by lia.
  rewrite (shl8_small (((0 * 256 + code a) * 256 + code b) * 256 + code c)) by lia.
  unfold pack_msb_first. f_equal. lia.
Qed.

Lemma div_mod_digits q r m :
  0 <= r < m -> (q * m + r) / m = q /\ (q * m + r) mod m = r.
Proof.
  intros H. split.
  - rewrite Z.div_add_l by lia. rewrite Z.div_small by lia. lia.
  - rewrite Z.add_comm, Z.mod_add by lia. apply Z.mod_small; lia.
Qed.

Lemma byte_at_pack a b c d :
  let v := pack_msb_first a b c d in
  byte_at v 3 = code a /\ byte_at v 2 = code b /\
  byte_at v 1 = code c /\ byte_at v 0 = code d.
Proof.
  pose proof (code_range a). pose proof (code_range b).
  pose proof (code_range c). pose proof (code_range d).
  unfold pack_msb_first, byte_at. cbv zeta.
  change (2 ^ (8 * 0)) with 1. change (2 ^ (8 * 1)) with 256.
  change (2 ^ (8 * 2)) with 65536. change (2 ^ (8 * 3)) with 16777216.
  change (2 ^ 24) with 16777216. change (2 ^ 16) with 65536.
  change (2 ^ 8) with 256.
  set (x := code a * 16777216 + code b * 65536 + code c * 256 + code d).
  assert (E3 : x = code a * 16777216 + (code b * 65536 + code c * 256 + code d)) by lia.
  assert (E2 : x = (code a * 256 + code b) * 65536 + (code c * 256 + code d)) by lia.
  assert (E1 : x = (code a * 65536 + code b * 256 + code c) * 256 + code d) by lia.
  pose proof (div_mod_digits (code a) (code b * 65536 + code c * 256 + code d)
                16777216 ltac:(lia)) as [D3 _].
  pose proof (div_mod_digits (code a * 256 + code b) (code c * 256 + code d)
                65536 ltac:(lia)) as [D2 _].
  pose proof (div_mod_digits (code a * 65536 + code b * 256 + code c) (code d)
                256 ltac:(lia)) as [D1 M0].
  pose proof (div_mod_digits (code a) (code b) 256 ltac:(lia)) as [_ M2].
  pose proof (div_mod_digits (code a * 256 + code b) (code c) 256 ltac:(lia))
    as [_ M1].
  rewrite <- E3 in D3. rewrite <- E2 in D2. rewrite <- E1 in D1, M0.
  rewrite D3, D2, D1, Z.div_1_r.
  repeat split.
  - apply Z.mod_small; lia.
  - exact M2.
  - replace (code a * 65536 + code b * 256 + code c)
      with ((code a * 256 + code b) * 256 + code c) by lia.
    exact M1.
  - exact M0.
Qed.

Lemma pack_byte_at v :
  0 <= v < 2 ^ 32 ->
  v = byte_at v 3 * 2 ^ 24 + byte_at v 2 * 2 ^ 16 + byte_at v 1 * 2 ^ 8
      + byte_at v 0.
Proof.
  intros H. unfold byte_at.
  change (2 ^ (8 * 0)) with 1. change (2 ^ (8 * 1)) with 256.
  change (2 ^ (8 * 2)) with (256 * 256).
  change (2 ^ (8 * 3)) with (256 * 256 * 256).
  rewrite <- !Z.div_div by lia. rewrite Z.div_1_r.
  pose proof (Z.div_mod v 256 ltac:(lia)).
  pose proof (Z.div_mod (v / 256) 256 ltac:(lia)).
  pose proof (Z.div_mod (v / 256 / 256) 256 ltac:(lia)).
  assert (0 <= v / 256 / 256 / 256 < 256).
  { split; [repeat apply Z.div_pos; lia |].
    repeat apply Z.div_lt_upper_bound; lia. }
  rewrite (Z.mod_small (v / 256 / 256 / 256)) by lia.
  lia.
Qed.

Lemma is_ascii4_chars s :
  is_ascii4 s = true ->
  exists a b c d,
    s = String a (String b (String c (String d ""))) /\
    code a < 128 /\ code b < 128 /\ code c < 128 /\ code d < 128.
Proof.
  unfold is_ascii4. intros H. apply andb_true_iff in H as [Hl Hc].
  apply Nat.eqb_eq in Hl.
  destruct s as [|a [|b [|c [|d [|e s]]]]]; try discriminate Hl.
  cbn in Hc. unfold is_ascii_char in Hc.
  repeat (apply andb_true_iff in Hc as [?%N.ltb_lt Hc]).
  exists a, b, c, d. unfold code. repeat split; lia.
Qed.

(** C8.  [serializeTableType] and [parseTableType] are inverses of each
    other.  For a string [s] of four ASCII characters, [serializeTableType]
    yields the 32-bit value that packs them with the first character in
    the most significant byte, and [parseTableType] of that value is [s]
    again.  For a 32-bit value [v] whose four bytes are ASCII,
    [serializeTableType] of the string [parseTableType] yields is [v]
    again. *)
Theorem tableType_codec_inverse (s : string) (v : Z) :
  (is_ascii4 s = true ->
   exists a b c d,
     s = String a (String b (String c (String d ""))) /\
     serializeTableType s = Some (pack_msb_first a b c d) /\
     0 <= pack_msb_first a b c d < 2 ^ 32 /\
     parseTableType (pack_msb_first a b c d) = s) /\
  (is_packed_ascii4 v = true ->
   serializeTableType (parseTableType v) = Some v).
Proof.
  split.
  - intros (a & b & c & d & -> & Ha & Hb & Hc & Hd)%is_ascii4_chars.
    exists a, b, c, d.
    pose proof (code_range a). pose proof (code_range b).
    pose proof (code_range c). pose proof (code_range d).
    assert (Hr : 0 <= pack_msb_first a b c d < 2 ^ 31).
    { unfold pack_msb_first. lia. }
    repeat split; try lia.
    + apply serializeTableType_chars; assumption.
    + rewrite parseTableType_bytes by exact Hr.
      destruct (byte_at_pack a b c d) as (-> & -> & -> & ->).
      rewrite !fromCharCode_code. reflexivity.
  - unfold is_packed_ascii4. intros H.
    repeat (apply andb_true_iff in H as [H ?]).
    apply Z.leb_le in H.
    repeat match goal with X : (_ <? _) = true |- _ => apply Z.ltb_lt in X end.
    pose proof (pack_byte_at v ltac:(lia)) as Hv.
    assert (Hb : forall k, 0 <= byte_at v k < 256).
    { intros k. unfold byte_at. apply Z.mod_pos_bound. lia. }
    pose proof (Hb 0). pose proof (Hb 1). pose proof (Hb 2). pose proof (Hb 3).
    rewrite parseTableType_bytes by lia.
    rewrite serializeTableType_chars by (rewrite code_fromCharCode; lia).
    unfold pack_msb_first. rewrite !code_fromCharCode by lia.
    f_equal. lia.
Qed.

Lemma tableType_codec_inverse_witness :
  is_ascii4 "slp " = true /\ is_packed_ascii4 1936486432 = true /\
  parseTableType 1936486432 = "slp " /\
  serializeTableType (parseTableType 1936486432) = Some 1936486432.
Proof.
  destruct (tableType_codec_inverse "slp " 1936486432) as [H1 H2].
  split; [reflexivity | split; [reflexivity | split]].
  - destruct (H1 eq_refl) as (a & b & c & d & Hs & _ & _ & Hp).
    injection Hs as <- <- <- <-. exact Hp.
  - apply H2. reflexivity.
Defined.

(** ** Reading the header *)

Lemma slice_whole (buf : Buffer) : slice buf 0 (length buf) = buf.
Proof.
  unfold slice. rewrite Nat.sub_0_r, drop_0. apply firstn_all.
Qed.

Lemma slice_0 (buf : Buffer) n : slice buf 0 n = take n buf.
Proof. unfold slice. rewrite Nat.sub_0_r, drop_0. reflexivity. Qed.

Lemma readUInt32LE_Some (buf : Buffer) off :
  (off + 4 <= length buf)%nat -> exists v, readUInt32LE buf off = Some v.
Proof.
  intros H. unfold readUInt32LE.
  assert (Hl : (4 <= length (drop off buf))%nat) by (rewrite length_drop; lia).
  destruct (drop off buf) as [|b0 [|b1 [|b2 [|b3 rest]]]]; cbn in Hl; try lia.
  eauto.
Qed.

Lemma readInt32LE_Some (buf : Buffer) off :
  (off + 4 <= length buf)%nat -> exists v, readInt32LE buf off = Some v.
Proof.
  intros H. unfold readInt32LE.
  destruct (readUInt32LE_Some buf off H) as [v ->]. eauto.
Qed.

Lemma readUInt32LE_take (buf : Buffer) n off :
  (off + 4 <= n)%nat -> readUInt32LE (take n buf) off = readUInt32LE buf off.
Proof.
  intros H. unfold readUInt32LE.
  replace n with (off + (4 + (n - off - 4)))%nat by lia.
  rewrite <- take_drop_commute.
  destruct (drop off buf) as [|b0 [|b1 [|b2 [|b3 rest]]]]; reflexivity.
Qed.

Lemma readInt32LE_take (buf : Buffer) n off :
  (off + 4 <= n)%nat -> readInt32LE (take n buf) off = readInt32LE buf off.
Proof.
  intros H. unfold readInt32LE. rewrite readUInt32LE_take by exact H.
  reflexivity.
Qed.

Lemma length_fs_read disk len pos : length (fs_read disk len pos) = len.
Proof.
  unfold fs_read, Buffer_alloc.
  rewrite length_app, repeat_length.
  assert (length (take len (drop pos disk)) <= len)%nat.
  { rewrite length_take. lia. }
  lia.
Qed.

Lemma fs_read_short disk len :
  (length disk <= len)%nat ->
  fs_read disk len 0 = (disk ++ Buffer_alloc (len - length disk))%list.
Proof.
  intros H. unfold fs_read. rewrite drop_0, take_ge by exact H. reflexivity.
Qed.

(** [headerStruct] succeeds on a buffer that holds the whole layout. *)
Lemma headerStruct_Some sw (buf : Buffer) :
  (copyright_width sw + 24 <= length buf)%nat ->
  exists n f,
    readInt32LE buf (copyright_width sw + 16) = Some n /\
    readInt32LE buf (copyright_width sw + 20) = Some f /\
    headerStruct sw buf =
    Some (mkHeader (take (copyright_width sw) buf)
            (slice buf (copyright_width sw) (copyright_width sw + 4))
            (slice buf (copyright_width sw + 4) (copyright_width sw + 16)) n f).
Proof.
  intros H.
  destruct (readInt32LE_Some buf (copyright_width sw + 16)) as [n Hn]; [lia|].
  destruct (readInt32LE_Some buf (copyright_width sw + 20)) as [f Hf]; [lia|].
  exists n, f. unfold headerStruct. rewrite Hn, Hf, slice_0. auto.
Qed.

(** The 84 bytes of the first read always parse, in one layout or the
    other. *)
Lemma parse_header_Some (buf : Buffer) :
  length buf = 84%nat ->
  exists h n, parse_header buf = Some (detect_swgb buf, h, n).
Proof.
  intros Hlen. unfold parse_header. destruct (detect_swgb buf).
  - destruct (headerStruct_Some true buf) as (n & f & _ & _ & Hh).
    { cbn. lia. }
    rewrite slice_whole, Hh. eauto.
  - change (Z.to_nat HEADER_SIZE_AOE) with 64%nat.
    destruct (headerStruct_Some false (slice buf 0 64)) as (n & f & _ & _ & Hh).
    { change (copyright_width false) with 40%nat.
      rewrite (slice_0 buf 64), length_take. lia. }
    rewrite slice_whole, Hh. eauto.
Qed.

(** C3, as amended.  The probe of [onHeader] is the first 54 bytes of the
    header, the length of the magic copyright string, read as ASCII text.
    When it equals the magic string the 84 bytes are parsed in the larger
    layout: a copyright field of 60 bytes, whatever its bytes 54 to 59 are,
    and the two integers at bytes 76 and 80.  For every other probe the
    first 64 bytes are parsed in the base layout: a copyright field of 40
    bytes and the two integers at bytes 56 and 60. *)
Theorem onHeader_variant_detection (buf : Buffer) :
  length buf = 84%nat ->
  detect_swgb buf = String.eqb (toString_ascii (take 54 buf)) COPYRIGHT_SWGB /\
  (toString_ascii (take 54 buf) = COPYRIGHT_SWGB ->
   exists h,
     parse_header buf = Some (true, h, 84%nat) /\
     headerStruct true buf = Some h /\
     copyright h = take 60 buf /\ length (copyright h) = 60%nat /\
     readInt32LE buf 76 = Some (hdr_numTables h) /\
     readInt32LE buf 80 = Some (firstFileOffset h)) /\
  (toString_ascii (take 54 buf) <> COPYRIGHT_SWGB ->
   exists h,
     parse_header buf = Some (false, h, 64%nat) /\
     headerStruct false (take 64 buf) = Some h /\
     copyright h = take 40 buf /\ length (copyright h) = 40%nat /\
     readInt32LE buf 56 = Some (hdr_numTables h) /\
     readInt32LE buf 60 = Some (firstFileOffset h)).
Proof.
  intros Hlen.
  assert (Hd : detect_swgb buf
               = String.eqb (toString_ascii (take 54 buf)) COPYRIGHT_SWGB).
  { unfold detect_swgb. rewrite slice_0. reflexivity. }
  split; [exact Hd|]. split.
  - intros Hm. apply String.eqb_eq in Hm. rewrite <- Hd in Hm.
    destruct (headerStruct_Some true buf) as (n & f & Hn & Hf & Hh).
    { cbn. lia. }
    eexists. unfold parse_header. rewrite Hm, slice_whole, Hh, Hlen.
    cbn [copyright hdr_numTables firstFileOffset copyright_width] in *.
    repeat split; cbn [copyright]; try assumption.
    rewrite length_take. lia.
  - intros Hm. apply String.eqb_neq in Hm. rewrite <- Hd in Hm.
    destruct (headerStruct_Some false (take 64 buf)) as (n & f & Hn & Hf & Hh).
    { cbn. rewrite length_take. lia. }
    assert (Hl64 : length (take 64 buf) = 64%nat) by (rewrite length_take; lia).
    eexists. unfold parse_header. rewrite Hm.
    change (Z.to_nat HEADER_SIZE_AOE) with 64%nat.
    rewrite (slice_0 buf 64), slice_whole, Hh, Hl64.
    cbn [copyright hdr_numTables firstFileOffset copyright_width] in *.
    rewrite readInt32LE_take in Hn, Hf by lia.
    repeat split; cbn [copyright]; try assumption.
    + rewrite take_take. reflexivity.
    + rewrite take_take, length_take. lia.
Qed.

Lemma onHeader_variant_detection_witness :
  length long_copyright_header = 84%nat /\
  toString_ascii (take 54 long_copyright_header) = COPYRIGHT_SWGB /\
  exists h, parse_header long_copyright_header = Some (true, h, 84%nat) /\
            length (copyright h) = 60%nat.
Proof.
  destruct (onHeader_variant_detection long_copyright_header eq_refl)
    as (_ & H & _).
  split; [reflexivity | split; [reflexivity |]].
  destruct (H eq_refl) as (h & Hp & _ & _ & Hl & _).
  exists h. split; assumption.
Defined.

(** C3 as stated fails: a 60-byte copyright field that starts with the magic
    string and goes on with other text is not equal to the magic string,
    also with NUL padding left aside, and yet the header is parsed in the
    larger layout. *)
Lemma probe_region_is_not_the_copyright_field :
  toString_ascii (slice long_copyright_header 0 60) <> COPYRIGHT_SWGB /\
  spec_detect_swgb long_copyright_header = false /\
  detect_swgb long_copyright_header = true /\
  exists h, parse_header long_copyright_header = Some (true, h, 84%nat) /\
            length (copyright h) = 60%nat.
Proof.
  split; [intros H; vm_compute in H; discriminate H|].
  split; [vm_compute; reflexivity|].
  split; [vm_compute; reflexivity|].
  eexists. split; vm_compute; reflexivity.
Qed.

(** C5, as amended.  Reading the header never fails on a short file: the 84
    byte buffer of the first read is zero-filled past the bytes the file
    has, [onHeader] does not look at [bytesRead], and a header is parsed
    and stored on the handle whatever the length of the file is.  The
    callback is not invoked; the only thing that may reach the caller is the
    exception [Buffer.alloc] throws on a negative table count. *)
Theorem onHeader_never_rejects_short_input (w : World) (f : Z) (cb : callback) :
  (length (disk w) < 84)%nat ->
  fs_read (disk w) 84 0
  = (disk w ++ Buffer_alloc (84 - length (disk w)))%list /\
  exists sw h n,
    parse_header (fs_read (disk w) 84 0) = Some (sw, h, n) /\
    let w' := onHeader f cb false w in
    header (drs w') = Some h /\ isSWGB (drs w') = Some sw /\
    numTables (drs w') = Some (hdr_numTables h) /\
    (log w' = log w \/ log w' = (log w ++ [ev_throw])%list).
Proof.
  intros Hshort. split; [apply fs_read_short; lia|].
  destruct (parse_header_Some _ (length_fs_read (disk w) 84 0)) as (h & n & Hp).
  exists (detect_swgb (fs_read (disk w) 84 0)), h, n. split; [exact Hp|].
  unfold onHeader. change (Z.to_nat HEADER_SIZE_SWGB) with 84%nat.
  rewrite Hp. cbn zeta.
  destruct (alloc_len _); cbn; auto.
Qed.

Lemma onHeader_never_rejects_short_input_witness :
  (length (disk (World_new empty_archive)) < 84)%nat /\
  exists h, header (drs (onHeader 3 (cb_user 0) false (World_new empty_archive)))
            = Some h.
Proof.
  assert (H : (length (disk (World_new empty_archive)) < 84)%nat)
    by (vm_compute; lia).
  split; [exact H|].
  destruct (onHeader_never_rejects_short_input (World_new empty_archive) 3
              (cb_user 0) H) as (_ & sw & h & n & _ & Hh & _).
  exists h. exact Hh.
Defined.

(** C5 as stated fails: the archive with no table is 64 bytes long, fewer
    than 84, and [read] parses its header and calls back without an
    error. *)
Lemma short_archive_is_parsed :
  (length empty_archive < 84)%nat /\
  let w := run [a_read 0%nat; a_complete 0 false; a_complete 0 false;
                a_complete 0 false; a_complete 0 false]
             (World_new empty_archive) in
  log w = [ev_callback 0 r_ok] /\
  option_map hdr_numTables (header (drs w)) = Some 0 /\
  option_map firstFileOffset (header (drs w)) = Some 64 /\
  isSWGB (drs w) = Some false.
Proof.
  split; [vm_compute; lia|]. vm_compute. auto.
Qed.

(** ** Classification *)

Lemma kind_of_makeFileInst buf file :
  kind_of (makeFileInst buf file) = classify (file_type file) buf.
Proof.
  unfold classify, makeFileInst. cbn [file_type].
  repeat match goal with |- context [if ?b then _ else _] => destruct b end;
    reflexivity.
Qed.

(** The byte a 7-bit character is read from. *)
Lemma ascii_of_buffer_byte_7bit (b : byte) :
  (Byte.to_N b < 128)%N -> byte_of_ascii (ascii_of_buffer_byte b) = b.
Proof.
  destruct b; vm_compute; intros H; try reflexivity; discriminate H.
Qed.

Lemma toString_ascii_7bit (buf : Buffer) :
  Forall (fun b => (Byte.to_N b < 128)%N) buf ->
  list_byte_of_string (toString_ascii buf) = buf.
Proof.
  unfold toString_ascii. induction 1 as [|b buf Hb _ IH]; [reflexivity|].
  cbn. rewrite ascii_of_buffer_byte_7bit by exact Hb. f_equal. exact IH.
Qed.

(** On a payload that starts with 7-bit bytes the content test of [readFile]
    is equality of the first 8 bytes with the bytes of ['JASC-PAL']. *)
Lemma is_jasc_pal_bytes (buf : Buffer) :
  Forall (fun b => (Byte.to_N b < 128)%N) (take 8 buf) ->
  is_jasc_pal buf = true <-> take 8 buf = Buffer_from "JASC-PAL".
Proof.
  intros H. unfold is_jasc_pal. rewrite slice_0, String.eqb_eq. split.
  - intros E. rewrite <- (toString_ascii_7bit _ H), E. reflexivity.
  - intros ->. reflexivity.
Qed.

(** Decoding as ['ascii'] looks at a byte with its top bit cleared. *)
Lemma ascii_of_buffer_byte_clear (b : byte) :
  ascii_of_buffer_byte b = ascii_of_byte (clear_top_bit b).
Proof. destruct b; vm_compute; reflexivity. Qed.

Lemma toString_ascii_clear (buf : Buffer) :
  toString_ascii buf = string_of_list_byte (map clear_top_bit buf).
Proof.
  unfold toString_ascii. induction buf as [|b buf IH]; [reflexivity|].
  cbn. rewrite ascii_of_buffer_byte_clear, IH. reflexivity.
Qed.

(** The content test of [readFile], on the bytes. *)
Lemma is_jasc_pal_masked (buf : Buffer) :
  is_jasc_pal buf = true
  <-> map clear_top_bit (take 8 buf) = Buffer_from "JASC-PAL".
Proof.
  unfold is_jasc_pal. rewrite (slice_0 buf 8), String.eqb_eq, toString_ascii_clear.
  split.
  - intros E. apply (f_equal list_byte_of_string) in E.
    rewrite list_byte_of_string_of_list_byte in E. exact E.
  - intros ->. reflexivity.
Qed.

(** C9, as amended.  The [if] chain of [readFile] is a total function into
    the four kinds.  It yields [Sprite] exactly for the tag ['slp '] and
    [Audio] exactly for the tag ['wav '], whatever the payload; [Palette]
    exactly when the tag is that of generic binary data, ['bina'], and the
    payload has at least 8 bytes, the first 8 of which, each with its top
    bit cleared, are the bytes of ['JASC-PAL']; [Generic] in every other
    case.  On a payload whose first 8 bytes have their top bit clear the
    test on the content is equality of these bytes with ['JASC-PAL']. *)
Theorem classify_by_tag_and_bytes (buf : Buffer) (file : File) :
  let tag := file_type file in
  let kind := kind_of (makeFileInst buf file) in
  let magic := map clear_top_bit (take 8 buf) = Buffer_from "JASC-PAL" in
  kind = classify tag buf /\
  (kind = Sprite <-> tag = "slp ") /\
  (kind = Audio <-> tag = "wav ") /\
  (kind = Palette <-> tag = "bina" /\ magic) /\
  (kind = Generic <-> tag <> "slp " /\ tag <> "wav " /\ ~ (tag = "bina" /\ magic)) /\
  (magic -> (8 <= length buf)%nat) /\
  (Forall (fun b => (Byte.to_N b < 128)%N) (take 8 buf) ->
   (magic <-> take 8 buf = Buffer_from "JASC-PAL")).
Proof.
  cbv zeta. split; [apply kind_of_makeFileInst|].
  pose proof (is_jasc_pal_masked buf) as Hm.
  assert (Hlen : map clear_top_bit (take 8 buf) = Buffer_from "JASC-PAL" ->
                 (8 <= length buf)%nat).
  { intros E. apply (f_equal (@length byte)) in E.
    rewrite length_map, length_take in E.
    change (length (Buffer_from "JASC-PAL")) with 8%nat in E. lia. }
  assert (H7 : Forall (fun b => (Byte.to_N b < 128)%N) (take 8 buf) ->
               (map clear_top_bit (take 8 buf) = Buffer_from "JASC-PAL" <->
                take 8 buf = Buffer_from "JASC-PAL")).
  { intros H. rewrite <- Hm. apply is_jasc_pal_bytes, H. }
  unfold makeFileInst.
  destruct (String.eqb_spec (file_type file) "slp ") as [E1|E1];
    [rewrite E1|];
    (destruct (String.eqb_spec (file_type file) "wav ") as [E2|E2];
     [try rewrite E2|]);
    (destruct (String.eqb_spec (file_type file) "bina") as [E3|E3];
     [try rewrite E3|]);
    destruct (is_jasc_pal buf);
    cbn [kind_of andb];
    repeat split; intros; try reflexivity; try discriminate;
    try (intuition congruence).
Qed.

Lemma classify_by_tag_and_bytes_witness :
  kind_of (makeFileInst palette_payload (mkFile 5 (Some 0) (Some 17) "bina" None))
  = Palette /\
  kind_of (makeFileInst hello (mkFile 7 (Some 88) (Some 5) "bina" None)) = Generic.
Proof.
  split.
  - apply (classify_by_tag_and_bytes palette_payload
             (mkFile 5 (Some 0) (Some 17) "bina" None)).
    split; reflexivity.
  - apply (classify_by_tag_and_bytes hello
             (mkFile 7 (Some 88) (Some 5) "bina" None)).
    cbn [file_type]. split; [discriminate|]. split; [discriminate|].
    intros [_ E]. vm_compute in E. discriminate E.
Defined.

(** C9 as stated fails: the bytes [ca c1 d3 c3 ad d0 c1 cc] are not those
    of ['JASC-PAL'], and a file of type ['bina'] that starts with them is
    a [Palette]. *)
Lemma top_bit_payload_is_palette :
  take 8 top_bit_payload <> Buffer_from "JASC-PAL" /\
  kind_of (makeFileInst top_bit_payload (mkFile 5 (Some 0) (Some 8) "bina" None))
  = Palette.
Proof.
  split; [intros H; vm_compute in H; discriminate H | vm_compute; reflexivity].
Qed.

(** ** Lookup *)

Lemma fold_left_concat (ts : list Table) (acc : list File) :
  fold_left (fun arr t => (arr ++ files t)%list) ts acc
  = (acc ++ concat (map files ts))%list.
Proof.
  revert acc. induction ts as [|t ts IH]; intros acc; cbn.
  - rewrite app_nil_r. reflexivity.
  - rewrite IH, <- app_assoc. reflexivity.
Qed.

(** [getFiles] lists the entries in table order, then entry order. *)
Lemma getFiles_concat d : getFiles d = concat (map files (table_list d)).
Proof. unfold getFiles. apply fold_left_concat. Qed.

Lemma find_app_first {A} (p : A -> bool) (l1 l2 : list A) :
  List.find p (l1 ++ l2)%list
  = match List.find p l1 with Some x => Some x | None => List.find p l2 end.
Proof.
  induction l1 as [|x l1 IH]; [reflexivity|]. cbn.
  destruct (p x); [reflexivity | exact IH].
Qed.

Lemma find_first_split {A} (p : A -> bool) (l : list A) (x : A) :
  List.find p l = Some x ->
  exists before after,
    l = (before ++ x :: after)%list /\ p x = true /\
    Forall (fun y => p y = false) before.
Proof.
  induction l as [|y l IH]; [discriminate|]. cbn.
  destruct (p y) eqn:Hy.
  - intros [= ->]. exists [], l. auto.
  - intros (before & after & -> & Hx & Hb)%IH.
    exists (y :: before), after. auto.
Qed.

(** The inner loop of [getFile] over a table whose count is the number of
    its entries left to visit. *)
Lemma getFile_inner_find (done todo : list File) (id : Z) :
  getFile_inner (length todo) (length done) (done ++ todo)%list id
  = option_map Found (List.find (fun f => file_id f =? id) todo).
Proof.
  revert done. induction todo as [|f todo IH]; intros done; [reflexivity|].
  cbn [length getFile_inner List.find].
  rewrite list_lookup_middle by reflexivity.
  destruct (file_id f =? id); [reflexivity|].
  specialize (IH (done ++ [f])%list).
  rewrite length_app, <- app_assoc in IH. cbn in IH.
  rewrite Nat.add_1_r in IH. exact IH.
Qed.

Lemma getFile_outer_find (ts : list Table) (id : Z) :
  Forall (fun t => numFiles t = Z.of_nat (length (files t))) ts ->
  getFile_outer ts id
  = match List.find (fun f => file_id f =? id) (concat (map files ts)) with
    | Some f => Found f
    | None => NotFound
    end.
Proof.
  induction 1 as [|t ts Ht _ IH]; [reflexivity|].
  cbn [getFile_outer map concat]. rewrite find_app_first, Ht, Nat2Z.id.
  pose proof (getFile_inner_find [] (files t) id) as E. cbn in E. rewrite E.
  destruct (List.find _ (files t)); [reflexivity | exact IH].
Qed.

(** C7, as amended.  On a handle whose tables have their count equal to the
    number of their entries, [getFile(id)] returns the first entry with
    that id in the order of [getFiles] (tables in table order, entries in
    entry order) and [null] when there is none; in particular an id that no
    entry carries is not found.  [getFile] reads the handle and writes
    nothing, so the answer does not depend on how often or in which order
    lookups are made. *)
Theorem getFile_first_match (d : DRS) (id : Z) :
  counts_agree d ->
  getFiles d = concat (map files (table_list d)) /\
  getFile d id
  = match List.find (fun f => file_id f =? id) (getFiles d) with
    | Some f => Found f
    | None => NotFound
    end /\
  (forall f, getFile d id = Found f ->
     exists before after,
       getFiles d = (before ++ f :: after)%list /\ file_id f = id /\
       Forall (fun g => file_id g <> id) before) /\
  ((forall g, In g (getFiles d) -> file_id g <> id) -> getFile d id = NotFound).
Proof.
  intros Hc.
  assert (E : getFile d id
              = match List.find (fun f => file_id f =? id) (getFiles d) with
                | Some f => Found f
                | None => NotFound
                end).
  { unfold getFile. rewrite getFiles_concat. apply getFile_outer_find, Hc. }
  split; [apply getFiles_concat|]. split; [exact E|]. split.
  - intros f Hf. rewrite E in Hf.
    destruct (List.find _ (getFiles d)) as [f'|] eqn:Hfind; [|discriminate].
    injection Hf as ->.
    destruct (find_first_split _ _ _ Hfind) as (before & after & Hl & Hid & Hb).
    exists before, after. split; [exact Hl|]. split; [apply Z.eqb_eq, Hid|].
    eapply Forall_impl; [exact Hb|]. cbn. intros g Hg. apply Z.eqb_neq, Hg.
  - intros Hnone. rewrite E.
    destruct (List.find _ (getFiles d)) as [f'|] eqn:Hfind; [|reflexivity].
    apply find_some in Hfind as [Hin Hid].
    apply Z.eqb_eq in Hid. destruct (Hnone f' Hin Hid).
Qed.

Lemma getFile_first_match_witness :
  counts_agree sample_drs /\
  getFile sample_drs 7 = Found (mkFile 7 (Some 134) (Some 20) "slp " None) /\
  getFile sample_drs 8 = NotFound.
Proof.
  assert (H : counts_agree sample_drs) by (repeat constructor).
  split; [exact H|].
  destruct (getFile_first_match sample_drs 7 H) as (_ & E7 & _).
  destruct (getFile_first_match sample_drs 8 H) as (_ & E8 & _).
  split; [rewrite E7 | rewrite E8]; reflexivity.
Defined.

(** ** The builder *)

(** The loop of [getTable] leaves the last table in [table] when no table
    has the tag. *)
Lemma getTable_loop_no_match objs refs type table :
  (forall r t, r ∈ refs -> objs !! r = Some t -> ext t <> type) ->
  getTable_loop objs refs type table = last (option_list table ++ refs)%list.
Proof.
  revert table. induction refs as [|r refs IH]; intros table Hno.
  - rewrite app_nil_r. destruct table; reflexivity.
  - cbn [getTable_loop].
    assert (Hrest : forall r' t, r' ∈ refs -> objs !! r' = Some t -> ext t <> type).
    { intros r' t Hr'. apply Hno. right. exact Hr'. }
    assert (Hgoal : getTable_loop objs refs type (Some r)
                    = last (option_list table ++ r :: refs)%list).
    { rewrite (IH (Some r) Hrest).
      destruct table as [r0|]; unfold option_list, option_rect; cbn [app].
      - rewrite (last_cons_cons r0 r refs). reflexivity.
      - reflexivity. }
    destruct (objs !! r) as [t|] eqn:Ht; [|exact Hgoal].
    destruct (String.eqb_spec (ext t) type) as [E|E]; [|exact Hgoal].
    destruct (Hno r t ltac:(left) Ht E).
Qed.

(** With at least one table and none of the tag asked for, [getTable]
    returns the last table and creates nothing. *)
Lemma getTable_without_match (d : DRS) (type : string) refs r :
  tables d = (refs ++ [r])%list ->
  (forall t, t ∈ table_list d -> ext t <> type) ->
  getTable d type = (d, r).
Proof.
  intros Ht Hno. unfold getTable.
  rewrite getTable_loop_no_match.
  - rewrite Ht. unfold option_list, option_rect. cbn [app].
    rewrite last_snoc. reflexivity.
  - intros r' t Hr' Hl. apply Hno. unfold table_list.
    apply list_elem_of_omap. eauto.
Qed.

(** With no table at all, [getTable] creates one, appends it and sets
    [numTables] to the new length. *)
Lemma getTable_first_table (d : DRS) (type : string) :
  tables d = [] ->
  let '(d', r) := getTable d type in
  r = length (objects d) /\
  objects d' = (objects d ++ [mkTable type None 0 []])%list /\
  tables d' = [r] /\ numTables d' = Some 1.
Proof.
  intros Ht. unfold getTable. rewrite Ht. cbn. rewrite Ht. auto.
Qed.

(** A table of the tag asked for is returned when the loop meets it. *)
Lemma getTable_loop_match objs refs1 r t refs2 type table :
  (forall r' t', r' ∈ refs1 -> objs !! r' = Some t' -> ext t' <> type) ->
  objs !! r = Some t -> ext t = type ->
  getTable_loop objs (refs1 ++ r :: refs2)%list type table = Some r.
Proof.
  revert table. induction refs1 as [|r1 refs1 IH]; intros table Hno Hr He.
  - cbn. rewrite Hr. apply String.eqb_eq in He. rewrite He. reflexivity.
  - cbn [app getTable_loop].
    assert (Hrest : forall r' t', r' ∈ refs1 -> objs !! r' = Some t' -> ext t' <> type).
    { intros r' t' Hr'. apply Hno. right. exact Hr'. }
    destruct (objs !! r1) as [t1|] eqn:H1; [|apply IH; assumption].
    destruct (String.eqb_spec (ext t1) type) as [E|E].
    + destruct (Hno r1 t1 ltac:(left) H1 E).
    + apply IH; assumption.
Qed.

(** C1 fails on the code.  On a builder that holds one table, ['slp '],
    [putFile('wav ', 2, <hello>, cb)] finds no table ['wav ']; [getTable]
    returns the table ['slp '] all the same, no table is created, the list
    of tables and [numTables] stay as they are, and the new entry, of type
    ['wav '], ends up in the table ['slp ']. *)
Theorem getTable_creates_no_second_table :
  let d := drs builder_with_slp in
  map ext (table_list d) = ["slp "] /\
  getTable d "wav " = (d, 0%nat) /\
  let w := step (a_putFile "wav " 2 (data_buffer hello) 1%nat) builder_with_slp in
  map ext (table_list (drs w)) = ["slp "] /\
  numTables (drs w) = Some 1 /\
  queue w = [p_timeout (newFile "wav " 2) 0 hello (cb_user 1)] /\
  let w' := step (a_complete 0 false) w in
  map (fun t => (ext t, numFiles t, map file_type (files t))) (table_list (drs w'))
  = [("slp ", 2, ["slp "; "wav "])] /\
  numTables (drs w') = Some 1.
Proof.
  vm_compute. repeat split; reflexivity.
Qed.

(** C2 fails on the code.  The table invariant holds on the builder with
    its one entry; after [putFile('wav ', 2, <hello>, cb)] has completed,
    the table ['slp '] holds an entry of type ['wav ']. *)
Theorem putFile_breaks_table_invariant :
  Forall table_invariant (table_list (drs builder_with_slp)) /\
  let w := run [a_putFile "wav " 2 (data_buffer hello) 1%nat; a_complete 0 false]
             builder_with_slp in
  log w = (log builder_with_slp
           ++ [ev_callback 1 (r_file (with_buffer (newFile "wav " 2) hello))])%list /\
  ~ Forall table_invariant (table_list (drs w)).
Proof.
  split.
  - vm_compute. repeat constructor.
  - cbv zeta. split; [vm_compute; reflexivity|].
    intros H. vm_compute in H.
    apply Forall_cons in H as [[_ H] _].
    apply Forall_cons in H as [_ H].
    apply Forall_cons in H as [H _].
    discriminate H.
Qed.

(** What does hold.  [onbuffer] leaves the count of the table it pushes on
    equal to the number of its entries, and keeps the whole invariant when
    the entry has the tag of the table. *)
Lemma push_file_count file t :
  numFiles (push_file file t) = Z.of_nat (length (files (push_file file t))).
Proof. reflexivity. Qed.

Lemma push_file_invariant file t :
  table_invariant t -> file_type file = ext t ->
  table_invariant (push_file file t).
Proof.
  intros [_ Ht] Hf. split; [reflexivity|]. cbn.
  apply Forall_app. split; [exact Ht | repeat constructor; exact Hf].
Qed.

(** [getTable] returns the first table of the tag asked for, when there is
    one, and leaves the handle as it is. *)
Lemma getTable_with_match (d : DRS) (type : string) refs1 r t refs2 :
  tables d = (refs1 ++ r :: refs2)%list ->
  (forall r' t', r' ∈ refs1 -> objects d !! r' = Some t' -> ext t' <> type) ->
  objects d !! r = Some t -> ext t = type ->
  getTable d type = (d, r).
Proof.
  intros Ht Hno Hr He. unfold getTable.
  rewrite Ht, (getTable_loop_match _ _ _ t) by assumption. reflexivity.
Qed.

(** The loop of [onTables] for one table, when it runs to its end, makes
    as many entries as the count says, all with the tag of the table. *)
Lemma read_files_ok n buf off type fs off' :
  read_files n buf off type = (fs, off', true) ->
  length fs = n /\ Forall (fun f => file_type f = type) fs /\
  off' = (off + 12 * n)%nat.
Proof.
  revert off fs. induction n as [|n IH]; intros off fs; cbn.
  - intros [= <- <-]. repeat split; [constructor | lia].
  - destruct (readInt32LE buf off), (readInt32LE buf (off + 4)),
      (readInt32LE buf (off + 8)); try discriminate.
    destruct (read_files n buf (off + 12) type) as [[fs1 off1] ok] eqn:Hrec.
    intros [= <- <- ->]. destruct (IH _ _ Hrec) as (Hl & Hf & ->).
    cbn. repeat split; [lia | constructor; [reflexivity | exact Hf] | lia].
Qed.

(** ** Reading the content of an entry *)

(** C4 fails on the code.  [readFile] never looks at [file.buffer].  For an
    entry that is pending, with its five bytes ['hello'] in memory and its
    offset unresolved, [readFile] on a handle that was never opened throws
    (the descriptor is [null]), and on an open handle it calls back with
    five bytes of the file on disk taken at the descriptor's position, the
    start of the header.  [createReadStream] on the same entry yields the
    payload. *)
Theorem readFile_ignores_pending_payload :
  getFile (drs unopened_with_pending) 1 = Found pending_entry /\
  getFile (drs opened_with_pending) 1 = Found pending_entry /\
  (let w := step (a_readFile 1 1%nat) unopened_with_pending in
   log w = (log unopened_with_pending ++ [ev_throw])%list /\ queue w = []) /\
  (let w := run [a_readFile 1 1%nat; a_complete 0 false] opened_with_pending in
   log w = (log opened_with_pending
            ++ [ev_callback 1 (r_inst (DRSFile (Buffer_from "Copyr") pending_entry))])%list) /\
  (let w := run [a_createReadStream 1 5%nat; a_complete 0 false]
              unopened_with_pending in
   log w = (log unopened_with_pending
            ++ [ev_stream_meta 5 (Some pending_entry); ev_stream_data 5 hello])%list).
Proof.
  vm_compute. repeat split; reflexivity.
Qed.

(** On an entry that holds its payload, [createReadStream] pumps exactly
    that payload, [file.size] bytes, whatever the state of the disk. *)
Lemma onread_pending_entry (w : World) listening id stream file b :
  getFile (drs w) id = Found file ->
  file_buffer file = Some b ->
  onread listening id stream r_ok w
  = schedule (p_pump stream (from_buffer b))
      (emit (ev_stream_meta stream (Some file)) w).
Proof.
  intros Hf Hb. unfold onread. rewrite Hf, Hb. reflexivity.
Qed.

(** ** Directory loads *)

Lemma loads_in_flight_schedule p w :
  loads_in_flight (schedule p w)
  = (loads_in_flight w + (if is_load p then 1 else 0))%nat.
Proof.
  unfold loads_in_flight, schedule. cbn [queue set_queue].
  rewrite filter_app, length_app. f_equal.
  cbn. destruct (is_load p); reflexivity.
Qed.

Lemma loads_in_flight_read cb w :
  loads_in_flight (read cb w) = S (loads_in_flight w).
Proof.
  unfold read. destruct (fd (drs w));
    rewrite loads_in_flight_schedule; cbn; lia.
Qed.

(** C6, as amended.  DRS.js keeps no flag for a load in progress and no
    queue of waiting calls: every [readFile] and every [createReadStream]
    issued while [numTables] is unset or zero starts a directory load of
    its own, whatever number of loads is in flight already. *)
Theorem every_early_read_starts_a_load (w : World) (id : Z) (k stream : nat) :
  JS.falsy (numTables (drs w)) = true ->
  loads_in_flight (step (a_readFile id k) w) = S (loads_in_flight w) /\
  loads_in_flight (step (a_createReadStream id stream) w) = S (loads_in_flight w).
Proof.
  intros Hf. cbn [step]. unfold readFile, readFile_body, createReadStream.
  rewrite Hf. split; apply loads_in_flight_read.
Qed.

Lemma every_early_read_starts_a_load_witness :
  JS.falsy (numTables (drs (step (a_readFile 7 0%nat) (World_new sample_archive))))
  = true /\
  loads_in_flight
    (step (a_readFile 8 1%nat) (step (a_readFile 7 0%nat) (World_new sample_archive)))
  = 2%nat.
Proof.
  assert (H : JS.falsy
                (numTables (drs (step (a_readFile 7 0%nat) (World_new sample_archive))))
              = true) by reflexivity.
  split; [exact H|].
  destruct (every_early_read_starts_a_load _ 8 1%nat 0%nat H) as [E _].
  rewrite E. reflexivity.
Defined.

(** C6 as stated fails: two [readFile] calls on a fresh handle put two
    loads in flight, each with its own [fs.open] and then its own read of
    the header; and a lookup on the fresh handle answers at once from the
    empty table list, with nothing loaded. *)
Lemma two_loads_in_flight :
  let w0 := World_new sample_archive in
  getFile (drs w0) 7 = NotFound /\ getFiles (drs w0) = [] /\
  let w := run [a_readFile 7 0%nat; a_readFile 8 1%nat] w0 in
  loads_in_flight w = 2%nat /\
  let w' := run [a_complete 0 false; a_complete 0 false] w in
  loads_in_flight w' = 2%nat /\
  queue w' = [p_header 3 (cb_readFile_retry 7 (cb_user 0));
              p_header 4 (cb_readFile_retry 8 (cb_user 1))].
Proof.
  vm_compute. repeat split; reflexivity.
Qed.

(** ** Entries in the tables have their size *)

Section Growth.

Lemma grows_refl objs : grows objs objs.
Proof. split; auto. Qed.

Lemma grows_app objs ts : grows objs (objs ++ ts)%list.
Proof.
  split.
  - rewrite length_app. lia.
  - intros f (t & Ht & Hf). exists t. split; [|exact Hf].
    apply elem_of_app. left. exact Ht.
Qed.

(** An update in place that only adds entries to a table. *)
Lemma grows_alter objs r (g : Table -> Table) :
  (forall t f, f ∈ files t -> f ∈ files (g t)) ->
  grows objs (alter g r objs).
Proof.
  intros Hg. split.
  - rewrite length_alter. lia.
  - intros f (t & Ht & Hf).
    apply list_elem_of_lookup in Ht as [i Hi].
    destruct (decide (r = i)) as [->|Hne].
    + exists (g t). split; [|apply Hg, Hf].
      apply list_elem_of_lookup. exists i.
      rewrite list_lookup_alter_eq, Hi. reflexivity.
    + exists t. split; [|exact Hf].
      apply list_elem_of_lookup. exists i.
      rewrite list_lookup_alter_ne by exact Hne. exact Hi.
Qed.

Lemma heap_ok_app objs ts :
  heap_ok objs -> Forall (fun t => files t = []) ts -> heap_ok (objs ++ ts)%list.
Proof.
  intros Ho Hts t f [Ht|Ht]%elem_of_app Hf.
  - exact (Ho t f Ht Hf).
  - rewrite Forall_forall in Hts. rewrite (Hts t) in Hf.
    + inversion Hf.
    + exact Ht.
Qed.

Lemma heap_ok_alter objs r (g : Table -> Table) :
  heap_ok objs ->
  (forall t f, f ∈ files (g t) -> f ∈ files t \/ size_resolved f) ->
  heap_ok (alter g r objs).
Proof.
  intros Ho Hg t' f Ht' Hf.
  apply list_elem_of_lookup in Ht' as [i Hi].
  destruct (decide (r = i)) as [->|Hne].
  - rewrite list_lookup_alter_eq in Hi.
    destruct (objs !! i) as [t|] eqn:Ht; [|discriminate].
    injection Hi as <-.
    destruct (Hg t f Hf) as [Hin|Hres]; [|exact Hres].
    apply (Ho t f); [|exact Hin]. apply list_elem_of_lookup. eauto.
  - rewrite list_lookup_alter_ne in Hi by exact Hne.
    apply (Ho t' f); [|exact Hf]. apply list_elem_of_lookup. eauto.
Qed.

Lemma event_ok_grows objs objs' e :
  grows objs objs' -> event_ok objs e -> event_ok objs' e.
Proof.
  intros [_ Hg]. destruct e as [k [| | |f|]| |s [f|]| |]; cbn; try tauto.
  - intros [? ?]. auto.
  - intros [? ?]. auto.
Qed.

Lemma pending_ok_grows objs objs' p :
  grows objs objs' -> pending_ok objs p -> pending_ok objs' p.
Proof.
  intros [Hl _] Hp t Ht. specialize (Hp t Ht). lia.
Qed.

End Growth.

(** Changing the handle so that the table objects grow keeps the
    invariant. *)
Lemma Inv_set_drs w d :
  Inv w -> heap_ok (objects d) -> grows (objects (drs w)) (objects d) ->
  Forall (fun r => (r < length (objects d))%nat) (tables d) ->
  Inv (set_drs d w).
Proof.
  intros [Hh Hl Ht Hq Hs Hc] Hh' Hg Ht'. split; cbn.
  - exact Hh'.
  - eapply Forall_impl; [exact Hl|]. intros e. apply event_ok_grows, Hg.
  - exact Ht'.
  - eapply Forall_impl; [exact Hq|]. intros p. apply pending_ok_grows, Hg.
  - exact Hs.
  - exact Hc.
Qed.

Lemma Inv_emit w e : Inv w -> event_ok (objects (drs w)) e -> Inv (emit e w).
Proof.
  intros [Hh Hl Ht Hq Hs Hc] He. split; cbn; try assumption.
  apply Forall_app. split; [exact Hl|]. constructor; [exact He | constructor].
Qed.

(** The code of the caller may be handed what is fit for the log. *)
Lemma Inv_observe w who r :
  Inv w -> result_ok (objects (drs w)) r -> Inv (observe who r w).
Proof.
  intros [Hh Hl Ht Hq Hs Hc] Hr. split; cbn; try assumption.
  apply Forall_app. split; [exact Hs|]. constructor; [|constructor].
  unfold seen_ok. cbn. destruct r; auto.
Qed.

Lemma Inv_schedule w p :
  Inv w -> pending_ok (objects (drs w)) p -> pending_caller p ->
  Inv (schedule p w).
Proof.
  intros [Hh Hl Ht Hq Hs Hc] Hp Hp'. split; cbn; try assumption.
  - apply Forall_app. split; [exact Hq|]. constructor; [exact Hp | constructor].
  - apply Forall_app. split; [exact Hc|]. constructor; [exact Hp' | constructor].
Qed.

Lemma Inv_set_positions w ps : Inv w -> Inv (set_positions ps w).
Proof. intros [Hh Hl Ht Hq Hs Hc]. split; assumption. Qed.

Lemma Inv_set_queue w q :
  Inv w -> Forall (pending_ok (objects (drs w))) q -> Forall pending_caller q ->
  Inv (set_queue q w).
Proof. intros [Hh Hl Ht Hq Hs Hc] Hq' Hc'. split; assumption. Qed.

Lemma pending_ok_plain objs p : pending_table p = None -> pending_ok objs p.
Proof. intros H t Ht. congruence. Qed.

(** *** Lookups answer with stored entries *)

Lemma getFile_inner_Found n i fs id f :
  getFile_inner n i fs id = Some (Found f) -> f ∈ fs.
Proof.
  revert i. induction n as [|n IH]; intros i; cbn; [discriminate|].
  destruct (fs !! i) as [g|] eqn:Hg; [|discriminate].
  destruct (file_id g =? id).
  - intros [= <-]. apply list_elem_of_lookup. eauto.
  - apply IH.
Qed.

Lemma getFile_outer_Found ts id f :
  getFile_outer ts id = Found f -> exists t, t ∈ ts /\ f ∈ files t.
Proof.
  induction ts as [|t ts IH]; cbn; [discriminate|].
  destruct (getFile_inner _ 0 (files t) id) as [r|] eqn:Hr.
  - intros ->. exists t. split; [left|]. eapply getFile_inner_Found, Hr.
  - intros (t' & Ht' & Hf)%IH. exists t'. split; [right|]; assumption.
Qed.

Lemma table_list_objects d t : t ∈ table_list d -> t ∈ objects d.
Proof.
  unfold table_list. intros (r & _ & Hr)%list_elem_of_omap.
  apply list_elem_of_lookup. eauto.
Qed.

Lemma getFile_Found_stored d id f :
  getFile d id = Found f -> stored_in f (objects d).
Proof.
  intros (t & Ht & Hf)%getFile_outer_Found.
  exists t. split; [apply table_list_objects, Ht | exact Hf].
Qed.

(** *** The callbacks *)

(** An event that carries no entry, and a call that pushes on no table. *)
Ltac plain_event := apply Inv_emit; [eassumption | exact I].
Ltac plain_call :=
  apply Inv_schedule;
  [eassumption | apply pending_ok_plain; reflexivity | exact I].

Lemma read_Inv cb w : Inv w -> Inv (read cb w).
Proof.
  intros H. unfold read.
  destruct (fd (drs w)); plain_call.
Qed.

Lemma readFile_body_Inv call_cb id cb w :
  (forall w', Inv w' -> Inv (call_cb r_err w')) ->
  Inv w -> Inv (readFile_body call_cb id cb w).
Proof.
  intros Hcb H. unfold readFile_body.
  destruct (JS.falsy _); [apply read_Inv, H|].
  destruct (getFile (drs w) id) as [file| |].
  - destruct (alloc_len _), (fd (drs w));
      first [plain_call
            | plain_event].
  - apply Hcb, H.
  - plain_event.
Qed.

Lemma onread_Inv listening id stream r w :
  Inv w -> Inv (onread listening id stream r w).
Proof.
  intros H. unfold onread.
  assert (Herr : Inv (if listening then emit (ev_stream_error stream) w
                      else emit ev_throw w))
    by (destruct listening; plain_event).
  destruct (getFile (drs w) id) as [file| |] eqn:Hg.
  - assert (Hst : stored_in file (objects (drs w)))
      by (eapply getFile_Found_stored, Hg).
    assert (Hmeta : Inv (emit (ev_stream_meta stream (Some file)) w)).
    { apply Inv_emit; [exact H|]. cbn. split; [|exact Hst].
      destruct Hst as (t & Ht & Hf). exact (inv_heap w H t file Ht Hf). }
    destruct r; try exact Herr;
      (destruct (file_buffer file);
       [plain_call|];
       destruct (file_offset file), (file_size file);
       try (plain_event);
       destruct (_ && _);
       [plain_call
       | plain_event]).
  - destruct r; try exact Herr;
      (destruct listening; [|plain_event];
       apply Inv_emit; [|exact I]; apply Inv_emit; [|exact I]; exact Herr).
  - destruct r; try exact Herr; (plain_event).
Qed.

Lemma completed_size_resolved f : completed f -> size_resolved f.
Proof.
  intros (b & Hb & Hs). split; [eauto|].
  intros b' Hb'. congruence.
Qed.

(** Invoking a callback keeps the invariant, provided an entry handed to it
    is completed and stored. *)
Lemma invoke_Inv cb r w :
  Inv w -> result_ok (objects (drs w)) r -> Inv (invoke cb r w).
Proof.
  revert r w. induction cb as [k|cb IH|id cb IH|id stream|stream];
    intros r w H Hr; cbn [invoke].
  - apply Inv_observe; [|exact Hr].
    apply Inv_emit; [exact H|]. destruct r; cbn in *; auto.
  - destruct r; try apply read_Inv; try exact H. apply IH; [exact H | exact I].
  - destruct r;
      try (apply readFile_body_Inv; [|exact H]; intros w' Hw';
           apply IH; [exact Hw' | exact I]).
    apply IH; [exact H | exact I].
  - apply onread_Inv, H.
  - destruct r; try (apply Inv_emit; [exact H|]; cbn; auto).
    apply Inv_observe; [|exact Hr]. apply Inv_emit; [exact H|].
    destruct Hr as [Hc Hs]. split; [apply completed_size_resolved, Hc | exact Hs].
Qed.

(** *** The builder *)

Lemma getTable_loop_ref objs refs type table r :
  getTable_loop objs refs type table = Some r -> r ∈ refs \/ table = Some r.
Proof.
  revert table. induction refs as [|r' refs IH]; intros table; cbn.
  - auto.
  - assert (Hrec : getTable_loop objs refs type (Some r') = Some r ->
                   r ∈ r' :: refs \/ table = Some r).
    { intros [Hin|[= ->]]%IH; left; [right; exact Hin | left]. }
    destruct (objs !! r') as [t|]; [|exact Hrec].
    destruct (String.eqb (ext t) type); [|exact Hrec].
    intros [= ->]. left. left.
Qed.

(** [getTable] keeps the invariant and returns a table that exists. *)
Lemma getTable_Inv w type :
  Inv w ->
  Inv (set_drs (getTable (drs w) type).1 w) /\
  ((getTable (drs w) type).2 < length (objects (getTable (drs w) type).1))%nat.
Proof.
  intros H. unfold getTable.
  destruct (getTable_loop _ _ _ _) as [r|] eqn:Hloop; cbn [fst snd].
  - split.
    + destruct w as [d ? ? ? ? ?]. exact H.
    + apply getTable_loop_ref in Hloop as [Hin|Hn]; [|discriminate].
      pose proof (inv_tables w H) as Ht. rewrite Forall_forall in Ht.
      apply Ht, Hin.
  - split.
    + apply Inv_set_drs; cbn.
      * exact H.
      * apply heap_ok_app; [apply (inv_heap w H) | repeat constructor].
      * apply grows_app.
      * rewrite length_app. cbn. apply Forall_app. split.
        -- eapply Forall_impl; [apply (inv_tables w H)|]. cbn. intros; lia.
        -- repeat constructor. lia.
    + cbn. rewrite length_app. cbn. lia.
Qed.

Lemma onbuffer_Inv file table cb buffer w :
  Inv w -> (table < length (objects (drs w)))%nat ->
  Inv (onbuffer file table cb buffer w).
Proof.
  intros H Ht. unfold onbuffer. destruct buffer as [b|].
  - assert (Hc : completed (with_buffer file b)) by (exists b; split; reflexivity).
    apply invoke_Inv.
    + apply Inv_set_drs; cbn.
      * exact H.
      * apply heap_ok_alter; [apply (inv_heap w H)|].
        intros t f. cbn. intros [Hf|Hf%list_elem_of_singleton]%elem_of_app.
        -- left. exact Hf.
        -- right. subst f. apply completed_size_resolved, Hc.
      * apply grows_alter. intros t f Hf. cbn. apply elem_of_app. left. exact Hf.
      * rewrite length_alter. apply (inv_tables w H).
    + cbn. split; [exact Hc|].
      destruct (lookup_lt_is_Some_2 _ _ Ht) as [t Hlk].
      exists (push_file (with_buffer file b) t). split.
      * apply list_elem_of_lookup. exists table.
        rewrite list_lookup_alter_eq, Hlk. reflexivity.
      * cbn. apply elem_of_app. right. left.
  - apply invoke_Inv; [exact H | exact I].
Qed.

(** *** The directory readers *)

Lemma read_tables_empty n buf off ts :
  read_tables n buf off = Some ts -> Forall (fun t => files t = []) ts.
Proof.
  revert off ts. induction n as [|n IH]; intros off ts; cbn.
  - intros [= <-]. constructor.
  - destruct (readUInt32LE buf off), (readInt32LE buf (off + 4)),
      (readInt32LE buf (off + 8)); try discriminate.
    destruct (read_tables n buf (off + 12)) as [ts'|] eqn:Hts; [|discriminate].
    intros [= <-]. constructor; [reflexivity | eapply IH, Hts].
Qed.

Lemma read_tables_length n buf off ts :
  read_tables n buf off = Some ts -> length ts = n.
Proof.
  revert off ts. induction n as [|n IH]; intros off ts; cbn.
  - intros [= <-]. reflexivity.
  - destruct (readUInt32LE buf off), (readInt32LE buf (off + 4)),
      (readInt32LE buf (off + 8)); try discriminate.
    destruct (read_tables n buf (off + 12)) as [ts'|] eqn:Hts; [|discriminate].
    intros [= <-]. cbn. f_equal. eapply IH, Hts.
Qed.

(** Every entry [onTables] makes has its size, read from the directory. *)
Lemma read_files_resolved n buf off type :
  Forall size_resolved (read_files n buf off type).1.1.
Proof.
  revert off. induction n as [|n IH]; intros off; cbn; [constructor|].
  destruct (readInt32LE buf off), (readInt32LE buf (off + 4)),
    (readInt32LE buf (off + 8)); try constructor.
  specialize (IH (off + 12)%nat).
  destruct (read_files n buf (off + 12) type) as [[fs off'] ok]. cbn in *.
  constructor; [|exact IH].
  split; cbn; [eauto | discriminate].
Qed.

Lemma onTables_loop_ok refs objs buf off :
  heap_ok objs ->
  let objs' := (onTables_loop refs objs buf off).1 in
  heap_ok objs' /\ grows objs objs' /\ length objs' = length objs.
Proof.
  cbv zeta. revert objs off. induction refs as [|r refs IH]; intros objs off Ho.
  - cbn. auto using grows_refl.
  - cbn [onTables_loop].
    destruct (objs !! r) as [t|]; [|apply IH, Ho].
    pose proof (read_files_resolved (Z.to_nat (numFiles t)) buf off (ext t)) as Hfs.
    destruct (read_files _ buf off (ext t)) as [[fs off'] ok]. cbn in Hfs.
    assert (Ho' : heap_ok (alter (push_files fs) r objs)).
    { apply heap_ok_alter; [exact Ho|]. intros t0 f. cbn.
      intros [Hf|Hf]%elem_of_app; [left; exact Hf | right].
      rewrite Forall_forall in Hfs. apply Hfs, Hf. }
    assert (Hg : grows objs (alter (push_files fs) r objs)).
    { apply grows_alter. intros t0 f Hf. cbn. apply elem_of_app. left. exact Hf. }
    destruct ok; cbn [fst].
    + destruct (IH (alter (push_files fs) r objs) off' Ho') as (H1 & H2 & H3).
      split; [exact H1|]. split.
      * destruct Hg as [Hl Hs], H2 as [Hl2 Hs2]. split; [lia | auto].
      * rewrite H3. apply length_alter.
    + split; [exact Ho'|]. split; [exact Hg | apply length_alter].
Qed.

Lemma onOpen_Inv cb err w : Inv w -> Inv (onOpen cb err w).
Proof.
  intros H. unfold onOpen. destruct err.
  - apply invoke_Inv; [exact H | exact I].
  - apply invoke_Inv; [|exact I].
    apply (Inv_set_drs _ (set_fd _ (drs w))); cbn.
    + apply Inv_set_positions, H.
    + apply (inv_heap w H).
    + apply grows_refl.
    + apply (inv_tables w H).
Qed.

Lemma onHeader_Inv f cb err w : Inv w -> Inv (onHeader f cb err w).
Proof.
  intros H. unfold onHeader. destruct err.
  - apply invoke_Inv; [exact H | exact I].
  - destruct (parse_header _) as [[[sw h] n]|].
    + assert (H1 : Inv (set_drs (set_header sw h (drs w)) w)).
      { apply Inv_set_drs; cbn;
          [exact H | apply (inv_heap w H) | apply grows_refl
          | apply (inv_tables w H)]. }
      cbv zeta. destruct (alloc_len _).
      * plain_call.
      * plain_event.
    + plain_event.
Qed.

Lemma onTableInfo_Inv f fileOffset len cb err w :
  Inv w -> Inv (onTableInfo f fileOffset len cb err w).
Proof.
  intros H. unfold onTableInfo. destruct err.
  - apply invoke_Inv; [exact H | exact I].
  - destruct (read_tables _ _ 0) as [ts|] eqn:Hts.
    + cbv zeta.
      match goal with |- context [set_drs ?d w] =>
        assert (H1 : Inv (set_drs d w)) end.
      { apply Inv_set_drs; cbn.
        - exact H.
        - apply heap_ok_app; [apply (inv_heap w H)|].
          eapply read_tables_empty, Hts.
        - apply grows_app.
        - rewrite length_app. apply Forall_forall. intros r Hr.
          apply elem_of_seq in Hr. lia. }
      destruct (alloc_len _).
      * plain_call.
      * plain_event.
    + plain_event.
Qed.

Lemma onTables_Inv f fileOffset len cb err w :
  Inv w -> Inv (onTables f fileOffset len cb err w).
Proof.
  intros H. unfold onTables. destruct err.
  - apply invoke_Inv; [exact H | exact I].
  - pose proof (onTables_loop_ok (tables (drs w)) (objects (drs w))
                  (fs_read (disk w) len fileOffset) 0 (inv_heap w H))
      as (H1 & H2 & H3).
    destruct (onTables_loop _ _ _ 0) as [objs ok]. cbn [fst] in *.
    assert (Hw : Inv (set_drs (set_objects objs (drs w)) w)).
    { apply Inv_set_drs; cbn; try assumption.
      rewrite H3. apply (inv_tables w H). }
    destruct ok.
    + apply invoke_Inv; [exact Hw | exact I].
    + plain_event.
Qed.

Lemma onFileRead_Inv f file len pos cb err w :
  Inv w -> Inv (onFileRead f file len pos cb err w).
Proof.
  intros H. unfold onFileRead. destruct err.
  - apply invoke_Inv; [exact H | exact I].
  - cbv zeta.
    destruct (match pos with Some p => _ | None => _ end).
    + apply invoke_Inv; [exact H | exact I].
    + apply invoke_Inv; [apply Inv_set_positions, H | exact I].
Qed.

Lemma onPump_Inv stream src err w : Inv w -> Inv (onPump stream src err w).
Proof.
  intros H. unfold onPump.
  destruct err; [|destruct src]; (plain_event).
Qed.

Lemma complete_Inv p err w :
  Inv w -> pending_ok (objects (drs w)) p -> Inv (complete p err w).
Proof.
  intros H Hp. destruct p; cbn [complete].
  - apply onOpen_Inv, H.
  - apply onHeader_Inv, H.
  - apply onTableInfo_Inv, H.
  - apply onTables_Inv, H.
  - apply onFileRead_Inv, H.
  - apply onbuffer_Inv; [exact H | apply Hp; reflexivity].
  - apply onbuffer_Inv; [exact H | apply Hp; reflexivity].
  - apply onbuffer_Inv; [exact H | apply Hp; reflexivity].
  - apply onPump_Inv, H.
Qed.

Lemma putFile_Inv type id data k w :
  Inv w -> Inv (putFile type id data (cb_user k) w).
Proof.
  intros H. unfold putFile.
  destruct (getTable_Inv w type H) as [H1 H2].
  destruct (getTable (drs w) type) as [d table]. cbn [fst snd] in *.
  destruct data.
  - apply Inv_schedule; [exact H1| |exists k; reflexivity].
    intros t [= <-]. exact H2.
  - apply Inv_schedule; [exact H1| |exists k; reflexivity].
    intros t [= <-]. exact H2.
  - plain_event.
Qed.

Lemma createWriteStream_Inv type id stream w :
  Inv w -> Inv (createWriteStream type id stream w).
Proof.
  intros H. unfold createWriteStream.
  destruct (getTable_Inv w type H) as [H1 H2].
  destruct (getTable (drs w) type) as [d table]. cbn [fst snd] in *.
  apply Inv_schedule; [exact H1| |exact I]. intros t [= <-]. exact H2.
Qed.

(** Every step keeps the invariant. *)
Lemma step_Inv a w : Inv w -> Inv (step a w).
Proof.
  intros H. destruct a; cbn [step].
  - plain_call.
  - apply read_Inv, H.
  - apply readFile_body_Inv; [|exact H].
    intros w' Hw'. apply invoke_Inv; [exact Hw' | exact I].
  - unfold createReadStream.
    destruct (JS.falsy _); [apply read_Inv | apply onread_Inv]; exact H.
  - apply putFile_Inv, H.
  - apply createWriteStream_Inv, H.
  - destruct (queue w !! i) as [p|] eqn:Hp; [|exact H].
    destruct p; try exact H.
    apply Inv_set_queue; [exact H| |].
    + pose proof (inv_queue w H) as Hq.
      apply Forall_insert; [exact Hq|].
      rewrite Forall_forall in Hq.
      intros t [= <-]. eapply (Hq _ (list_elem_of_lookup_2 _ _ _ Hp)). reflexivity.
    + apply Forall_insert; [apply (inv_callers w H) | exact I].
  - destruct (queue w !! i) as [p|] eqn:Hp; [|exact H].
    pose proof (inv_queue w H) as Hq.
    apply complete_Inv.
    + apply Inv_set_queue; [exact H| |].
      * apply Forall_delete, Hq.
      * apply Forall_delete, (inv_callers w H).
    + rewrite Forall_forall in Hq. cbn.
      apply Hq. eapply list_elem_of_lookup_2, Hp.
Qed.

Lemma World_new_Inv d : Inv (World_new d).
Proof.
  split; cbn; [|constructor..]. intros t f Ht. inversion Ht.
Qed.

Lemma reachable_Inv d w : reachable d w -> Inv w.
Proof.
  induction 1 as [|a w _ IH]; [apply World_new_Inv | apply step_Inv, IH].
Qed.

Lemma reachable_run d acts w : reachable d w -> reachable d (run acts w).
Proof.
  revert w. induction acts as [|a acts IH]; intros w H; cbn; [exact H|].
  apply IH. constructor. exact H.
Qed.




(** ** The count of a table on a builder *)

(** On a builder the stored count of every table object is the number of
    its entries: a new table starts with 0 and no entry, and [onbuffer]
    sets the count after each push. *)
Lemma built_counts w :
  built w ->
  Forall (fun t => numFiles t = Z.of_nat (length (files t))) (objects (drs w)) /\
  Forall builder_pending (queue w).
Proof.
  induction 1 as [|a w _ [Hc Hq] Ha]; [split; constructor|].
  assert (Hget : forall type,
             Forall (fun t => numFiles t = Z.of_nat (length (files t)))
               (objects (getTable (drs w) type).1)).
  { intros type. unfold getTable. destruct (getTable_loop _ _ _ _); cbn.
    - exact Hc.
    - apply Forall_app. split; [exact Hc | repeat constructor]. }
  destruct a; try discriminate Ha; cbn [step].
  - unfold putFile. specialize (Hget type).
    destruct (getTable (drs w) type) as [d table]. cbn [fst] in Hget.
    destruct data; cbn; (split; [exact Hget|]);
      try (apply Forall_app; split; [exact Hq | repeat constructor]).
    exact Hq.
  - unfold createWriteStream. specialize (Hget type).
    destruct (getTable (drs w) type) as [d table]. cbn [fst] in Hget.
    cbn. split; [exact Hget|].
    apply Forall_app; split; [exact Hq | repeat constructor].
  - destruct (queue w !! i) as [p|] eqn:Hp; [|split; assumption].
    destruct p; try (split; assumption).
    cbn. split; [exact Hc|]. apply Forall_insert; [exact Hq | exact I].
  - destruct (queue w !! i) as [p|] eqn:Hp; [|split; assumption].
    assert (Hbp : builder_pending p).
    { rewrite Forall_forall in Hq. eapply Hq, list_elem_of_lookup_2, Hp. }
    assert (Hq' : Forall builder_pending (delete i (queue w)))
      by (apply Forall_delete, Hq).
    assert (Hpush : forall f table,
               Forall (fun t => numFiles t = Z.of_nat (length (files t)))
                 (alter (push_file f) table (objects (drs w)))).
    { intros f table. apply Forall_alter; [exact Hc|]. reflexivity. }
    destruct p as [| | | | |file table data cb|file table chunks cb
                   |file table stream data|]; try destruct cb;
      try destruct Hbp; cbn [complete].
    + cbn. split; [apply Hpush | exact Hq'].
    + destruct err; cbn; (split; [first [apply Hpush | exact Hc] | exact Hq']).
    + cbn. split; [apply Hpush | exact Hq'].
Qed.

(** The tables of a builder satisfy the premise of the lookup theorem. *)
Lemma builder_counts_agree w : built w -> counts_agree (drs w).
Proof.
  intros [Hc _]%built_counts. unfold counts_agree.
  rewrite Forall_forall in Hc |- *.
  intros t Ht. apply Hc, table_list_objects, Ht.
Qed.

(** ** The readers on the sample archive *)

(** A [readFile] on a fresh handle on the sample archive: [open], the three
    reads of the directory, the read of the content. *)
Example load_sample_archive :
  let w := run [a_readFile 7 0%nat; a_complete 0 false; a_complete 0 false;
                a_complete 0 false; a_complete 0 false; a_complete 0 false]
             (World_new sample_archive) in
  table_list (drs w)
  = [mkTable "bina" (Some 76) 1 [mkFile 7 (Some 88) (Some 5) "bina" None]] /\
  log w = [ev_callback 0
             (r_inst (DRSFile hello (mkFile 7 (Some 88) (Some 5) "bina" None)))] /\
  getSize (drs w) = Z.of_nat (length sample_archive).
Proof. vm_compute. repeat split; reflexivity. Qed.

(** While a load is under way, between [onTableInfo] and [onTables], a
    table has its count and no entry yet, and the counts do not agree:
    [getFile] would read past the end of [files]. *)
Example getFile_during_load :
  let w := run [a_read 0%nat; a_complete 0 false; a_complete 0 false;
                a_complete 0 false] (World_new sample_archive) in
  table_list (drs w) = [mkTable "bina" (Some 76) 1 []] /\
  getFile (drs w) 7 = LookupThrows.
Proof. vm_compute. split; reflexivity. Qed.

(** C7 as stated fails on states a handle does get into, where the count of
    a table is not the number of its entries.  During a load, once the
    table directory is read, the table of the sample archive announces one
    entry and holds none, and the lookup throws.  When an entry is added
    during the load, the table ends up with the count 1 and the two entries
    99 and 7: entry 7 is among those [getFiles] lists, and [getFile(7)]
    returns [null]. *)
Lemma getFile_when_counts_disagree :
  reachable sample_archive loading_world /\
  getFile (drs loading_world) 7 = LookupThrows /\
  reachable sample_archive interleaved_world /\
  table_list (drs interleaved_world)
  = [mkTable "bina" (Some 76) 1
       [mkFile 99 None (Some 5) "bina" (Some hello);
        mkFile 7 (Some 88) (Some 5) "bina" None]] /\
  List.find (fun f => file_id f =? 7) (getFiles (drs interleaved_world))
  = Some (mkFile 7 (Some 88) (Some 5) "bina" None) /\
  getFile (drs interleaved_world) 7 = NotFound /\
  getFile (drs interleaved_world) 7
  <> match List.find (fun f => file_id f =? 7) (getFiles (drs interleaved_world)) with
     | Some f => Found f
     | None => NotFound
     end.
Proof.
  assert (H : reachable sample_archive loading_world).
  { unfold loading_world. apply reachable_run. constructor. }
  split; [exact H|]. split; [vm_compute; reflexivity|].
  split; [unfold interleaved_world; apply reachable_run, H|].
  split; [vm_compute; reflexivity|]. split; [vm_compute; reflexivity|].
  split; [vm_compute; reflexivity|].
  intros E. vm_compute in E. discriminate E.
Qed.

(** * Further properties of the code *)

(** ** The table-type codec on every number and every string *)

Lemma ToInt32_range x : - 2 ^ 31 <= JS.ToInt32 x < 2 ^ 31.
Proof.
  unfold JS.ToInt32.
  pose proof (Z.mod_pos_bound (x + 2 ^ 31) (2 ^ 32) ltac:(lia)). lia.
Qed.

Lemma ToInt32_idempotent x : JS.ToInt32 (JS.ToInt32 x) = JS.ToInt32 x.
Proof. apply ToInt32_small, ToInt32_range. Qed.

(** [ToInt32] changes a number by a multiple of [2 ^ 32]. *)
Lemma ToInt32_congruent x : exists q, JS.ToInt32 x = x - 2 ^ 32 * q.
Proof.
  exists ((x + 2 ^ 31) / 2 ^ 32). unfold JS.ToInt32.
  pose proof (Z.div_mod (x + 2 ^ 31) (2 ^ 32) ltac:(lia)). lia.
Qed.

Lemma parseTableType_ToInt32 v : parseTableType (JS.ToInt32 v) = parseTableType v.
Proof.
  unfold parseTableType, parseTableType_loop, JS.and, JS.sar.
  rewrite !ToInt32_idempotent. reflexivity.
Qed.

(** The bytes of a number and of any number congruent to it modulo
    [2 ^ 32] are the same. *)
Lemma byte_at_congruent n q :
  byte_at (n - 2 ^ 32 * q) 0 = byte_at n 0 /\
  byte_at (n - 2 ^ 32 * q) 1 = byte_at n 1 /\
  byte_at (n - 2 ^ 32 * q) 2 = byte_at n 2 /\
  byte_at (n - 2 ^ 32 * q) 3 = byte_at n 3.
Proof.
  unfold byte_at.
  change (2 ^ (8 * 0)) with 1. change (2 ^ (8 * 1)) with 256.
  change (2 ^ (8 * 2)) with 65536. change (2 ^ (8 * 3)) with 16777216.
  rewrite !Z.div_1_r.
  replace (n - 2 ^ 32 * q) with (n + (- (16777216 * q)) * 256) at 1 by lia.
  replace (n - 2 ^ 32 * q) with (n + (- (16777216 * q)) * 256) at 1 by lia.
  replace (n - 2 ^ 32 * q) with (n + (- (65536 * q)) * 65536) at 1 by lia.
  replace (n - 2 ^ 32 * q) with (n + (- (256 * q)) * 16777216) by lia.
  rewrite !Z.div_add by lia. rewrite Z.mod_add by lia.
  replace (n / 256 + - (16777216 * q)) with (n / 256 + (- (65536 * q)) * 256) by lia.
  replace (n / 65536 + - (65536 * q)) with (n / 65536 + (- (256 * q)) * 256) by lia.
  replace (n / 16777216 + - (256 * q)) with (n / 16777216 + (- q) * 256) by lia.
  rewrite !Z.mod_add by lia. auto.
Qed.

(** [parseTableType] on a number in the range of an [int32]: the four
    bytes of its two's complement form, the most significant one first. *)
Lemma parseTableType_int32 n :
  - 2 ^ 31 <= n < 2 ^ 31 ->
  parseTableType n =
  String (JS.fromCharCode (byte_at n 3))
    (String (JS.fromCharCode (byte_at n 2))
       (String (JS.fromCharCode (byte_at n 1))
          (String (JS.fromCharCode (byte_at n 0)) ""))).
Proof.
  intros H. unfold parseTableType, parseTableType_loop, JS.and, JS.sar, byte_at.
  assert (H1 : - 2 ^ 23 <= n / 256 < 2 ^ 23).
  { split; [apply Z.div_le_lower_bound; lia | apply Z.div_lt_upper_bound; lia]. }
  assert (H2 : - 2 ^ 15 <= n / 256 / 256 < 2 ^ 15).
  { split; [apply Z.div_le_lower_bound; lia | apply Z.div_lt_upper_bound; lia]. }
  assert (H3 : - 2 ^ 7 <= n / 256 / 256 / 256 < 2 ^ 7).
  { split; [apply Z.div_le_lower_bound; lia | apply Z.div_lt_upper_bound; lia]. }
  rewrite (ToInt32_small 255) by lia.
  rewrite (ToInt32_small n) by lia.
  rewrite !Z.shiftr_div_pow2 by lia. change (2 ^ 8) with 256.
  rewrite (ToInt32_small (n / 256)) by lia.
  rewrite (ToInt32_small (n / 256 / 256)) by lia.
  rewrite (ToInt32_small (n / 256 / 256 / 256)) by lia.
  change 255 with (Z.ones 8). rewrite !Z.land_ones by lia.
  change (2 ^ 8) with 256.
  change (2 ^ (8 * 0)) with 1. rewrite Z.div_1_r.
  change (2 ^ (8 * 1)) with 256.
  change (2 ^ (8 * 2)) with (256 * 256).
  change (2 ^ (8 * 3)) with (256 * 256 * 256).
  rewrite <- !Z.div_div by lia. reflexivity.
Qed.

(** [serializeTableType] on four characters; the last shift may overflow
    into the sign bit. *)
Lemma serializeTableType_any a b c d :
  serializeTableType (String a (String b (String c (String d "")))) =
  Some (JS.ToInt32 (pack_msb_first a b c d)).
Proof.
  pose proof (code_range a). pose proof (code_range b).
  pose proof (code_range c). pose proof (code_range d).
  unfold serializeTableType, serializeTableType_loop, JS.charCodeAt,
    JS.add_nan, JS.ToInt32_nan. cbn [String.get].
  fold (code a) (code b) (code c) (code d).
  rewrite (shl8_small 0) by lia.
  rewrite (shl8_small (0 * 256 + code a)) by lia.
  rewrite (shl8_small ((0 * 256 + code a) * 256 + code b)) by lia.
  f_equal. unfold JS.shl, pack_msb_first.
  set (x := ((0 * 256 + code a) * 256 + code b) * 256 + code c).
  assert (Hx : 0 <= x < 2 ^ 24) by (unfold x; lia).
  replace (code a * 2 ^ 24 + code b * 2 ^ 16 + code c * 2 ^ 8 + code d)
    with (x * 256 + code d) by (unfold x; lia).
  rewrite (ToInt32_small x) by lia.
  rewrite Z.shiftl_mul_pow2 by lia. change (2 ^ 8) with 256.
  destruct (Z_lt_le_dec (x * 256) (2 ^ 31)) as [Hs|Hs].
  - rewrite !ToInt32_small by lia. reflexivity.
  - unfold JS.ToInt32.
    replace (x * 256 + 2 ^ 31) with (x * 256 - 2 ^ 31 + 1 * 2 ^ 32) by lia.
    replace (x * 256 + code d + 2 ^ 31)
      with (x * 256 + code d - 2 ^ 31 + 1 * 2 ^ 32) by lia.
    rewrite !Z.mod_add by lia. rewrite !Z.mod_small by lia. lia.
Qed.

(** X1.  [parseTableType] undoes [serializeTableType] on every string of
    four characters with codes below 256, ASCII or not; the number in
    between is a signed 32-bit integer, negative when the first character
    has a code of 128 or more. *)
Theorem parse_serialize_four_chars (s : string) :
  String.length s = 4%nat ->
  exists n,
    serializeTableType s = Some n /\ - 2 ^ 31 <= n < 2 ^ 31 /\
    parseTableType n = s /\
    (n < 0 <-> 128 <= default 0 (JS.charCodeAt s 0)).
Proof.
  intros Hl. destruct s as [|a [|b [|c [|d [|e s]]]]]; try discriminate Hl.
  pose proof (code_range a). pose proof (code_range b).
  pose proof (code_range c). pose proof (code_range d).
  exists (JS.ToInt32 (pack_msb_first a b c d)).
  split; [apply serializeTableType_any|].
  split; [apply ToInt32_range|]. split.
  - rewrite parseTableType_ToInt32.
    destruct (ToInt32_congruent (pack_msb_first a b c d)) as [q Hq].
    rewrite <- parseTableType_ToInt32, parseTableType_int32 by apply ToInt32_range.
    rewrite Hq.
    destruct (byte_at_congruent (pack_msb_first a b c d) q) as (-> & -> & -> & ->).
    destruct (byte_at_pack a b c d) as (-> & -> & -> & ->).
    rewrite !fromCharCode_code. reflexivity.
  - cbn. fold (code a). unfold pack_msb_first.
    destruct (Z_lt_le_dec (code a) 128) as [Hs|Hs].
    + rewrite ToInt32_small by lia. lia.
    + unfold JS.ToInt32.
      replace (code a * 2 ^ 24 + code b * 2 ^ 16 + code c * 2 ^ 8 + code d + 2 ^ 31)
        with (code a * 2 ^ 24 + code b * 2 ^ 16 + code c * 2 ^ 8 + code d - 2 ^ 31
              + 1 * 2 ^ 32) by lia.
      rewrite Z.mod_add by lia. rewrite Z.mod_small by lia. lia.
Qed.

Lemma parse_serialize_four_chars_witness :
  String.length "bina" = 4%nat /\
  exists n, serializeTableType "bina" = Some n /\ parseTableType n = "bina".
Proof.
  split; [reflexivity|].
  destruct (parse_serialize_four_chars "bina" eq_refl) as (n & Hs & _ & Hp & _).
  exists n. split; assumption.
Defined.

(** X2.  [serializeTableType] of the string [parseTableType] makes of a
    number is that number read as a signed 32-bit integer: a value read by
    [t.uint32] comes back unchanged exactly when it is below [2 ^ 31]. *)
Theorem serialize_parse_is_ToInt32 (v : Z) :
  serializeTableType (parseTableType v) = Some (JS.ToInt32 v) /\
  (0 <= v < 2 ^ 32 ->
   (serializeTableType (parseTableType v) = Some v <-> v < 2 ^ 31)).
Proof.
  assert (E : serializeTableType (parseTableType v) = Some (JS.ToInt32 v)).
  { rewrite <- parseTableType_ToInt32.
    pose proof (ToInt32_range v) as Hr.
    set (n := JS.ToInt32 v) in *.
    rewrite parseTableType_int32 by exact Hr.
    rewrite serializeTableType_any. f_equal.
    assert (Hb : forall k, 0 <= byte_at n k < 256).
    { intros k. unfold byte_at. apply Z.mod_pos_bound. lia. }
    pose proof (Hb 0). pose proof (Hb 1). pose proof (Hb 2). pose proof (Hb 3).
    unfold pack_msb_first. rewrite !code_fromCharCode by lia.
    pose proof (Z.div_mod n (2 ^ 32) ltac:(lia)) as Hd.
    pose proof (Z.mod_pos_bound n (2 ^ 32) ltac:(lia)) as Hm.
    destruct (byte_at_congruent n (n / 2 ^ 32)) as (E0 & E1 & E2 & E3).
    replace (n - 2 ^ 32 * (n / 2 ^ 32)) with (n mod 2 ^ 32) in * by lia.
    rewrite <- E0, <- E1, <- E2, <- E3.
    rewrite <- (pack_byte_at (n mod 2 ^ 32)) by lia.
    destruct (ToInt32_congruent (n mod 2 ^ 32)) as [q Hq].
    pose proof (ToInt32_range (n mod 2 ^ 32)). lia. }
  split; [exact E|]. intros Hv. rewrite E. split.
  - intros [= Ht]. pose proof (ToInt32_range v). lia.
  - intros Hs. f_equal. apply ToInt32_small. lia.
Qed.

Lemma serialize_parse_is_ToInt32_witness :
  0 <= 4294967295 < 2 ^ 32 /\
  serializeTableType (parseTableType 4294967295) = Some (-1).
Proof.
  split; [lia|].
  destruct (serialize_parse_is_ToInt32 4294967295) as [E _]. exact E.
Defined.

(** X3.  [serializeTableType] looks at the first four characters and at
    nothing else: on a shorter string the result is [NaN], and whatever
    follows the fourth character does not change the result. *)
Theorem serializeTableType_four_chars_only (s rest : string) :
  ((String.length s < 4)%nat -> serializeTableType s = None) /\
  (String.length s = 4%nat ->
   serializeTableType (s ++ rest)%string = serializeTableType s).
Proof.
  split.
  - intros Hl. destruct s as [|a [|b [|c [|d s]]]]; try reflexivity.
    cbn in Hl. lia.
  - intros Hl. destruct s as [|a [|b [|c [|d [|e s]]]]]; try discriminate Hl.
    reflexivity.
Qed.

Lemma serializeTableType_four_chars_only_witness :
  (String.length "slp" < 4)%nat /\ serializeTableType "slp" = None /\
  String.length "wav " = 4%nat /\
  serializeTableType ("wav " ++ "e")%string = serializeTableType "wav ".
Proof.
  destruct (serializeTableType_four_chars_only "slp" "") as [H1 _].
  destruct (serializeTableType_four_chars_only "wav " "e") as [_ H2].
  split; [cbn; lia|]. split; [apply H1; cbn; lia|].
  split; [reflexivity | apply H2; reflexivity].
Defined.

(** ** The earlier layout and the current one *)

Lemma byte_at_digits A B C D :
  0 <= A < 256 -> 0 <= B < 256 -> 0 <= C < 256 -> 0 <= D < 256 ->
  let v := A * 2 ^ 24 + B * 2 ^ 16 + C * 2 ^ 8 + D in
  0 <= v < 2 ^ 32 /\
  byte_at v 3 = A /\ byte_at v 2 = B /\ byte_at v 1 = C /\ byte_at v 0 = D.
Proof.
  intros HA HB HC HD. cbv zeta. split; [lia|].
  unfold byte_at.
  change (2 ^ (8 * 0)) with 1. change (2 ^ (8 * 1)) with 256.
  change (2 ^ (8 * 2)) with 65536. change (2 ^ (8 * 3)) with 16777216.
  change (2 ^ 24) with 16777216. change (2 ^ 16) with 65536.
  change (2 ^ 8) with 256.
  set (x := A * 16777216 + B * 65536 + C * 256 + D).
  assert (E3 : x = A * 16777216 + (B * 65536 + C * 256 + D)) by lia.
  assert (E2 : x = (A * 256 + B) * 65536 + (C * 256 + D)) by lia.
  assert (E1 : x = (A * 65536 + B * 256 + C) * 256 + D) by lia.
  pose proof (div_mod_digits A (B * 65536 + C * 256 + D) 16777216 ltac:(lia))
    as [D3 _].
  pose proof (div_mod_digits (A * 256 + B) (C * 256 + D) 65536 ltac:(lia))
    as [D2 _].
  pose proof (div_mod_digits (A * 65536 + B * 256 + C) D 256 ltac:(lia))
    as [D1 M0].
  pose proof (div_mod_digits A B 256 ltac:(lia)) as [_ M2].
  pose proof (div_mod_digits (A * 256 + B) C 256 ltac:(lia)) as [_ M1].
  rewrite <- E3 in D3. rewrite <- E2 in D2. rewrite <- E1 in D1, M0.
  rewrite D3, D2, D1, Z.div_1_r.
  repeat split.
  - apply Z.mod_small; lia.
  - exact M2.
  - replace (A * 65536 + B * 256 + C) with ((A * 256 + B) * 256 + C) by lia.
    exact M1.
  - exact M0.
Qed.

(** [parseTableType] on a value read by [t.uint32]. *)
Lemma parseTableType_uint32 v :
  0 <= v < 2 ^ 32 ->
  parseTableType v =
  String (JS.fromCharCode (byte_at v 3))
    (String (JS.fromCharCode (byte_at v 2))
       (String (JS.fromCharCode (byte_at v 1))
          (String (JS.fromCharCode (byte_at v 0)) ""))).
Proof.
  intros _. rewrite <- parseTableType_ToInt32.
  rewrite parseTableType_int32 by apply ToInt32_range.
  destruct (ToInt32_congruent v) as [q ->].
  destruct (byte_at_congruent v q) as (-> & -> & -> & ->). reflexivity.
Qed.

Lemma byte_val_range b : 0 <= byte_val b < 256.
Proof.
  unfold byte_val. pose proof (Byte.to_N_bounded b). lia.
Qed.

Lemma ascii_of_buffer_byte_fromCharCode (b : byte) :
  (Byte.to_N b <? 128)%N = true ->
  ascii_of_buffer_byte b = JS.fromCharCode (byte_val b).
Proof.
  destruct b; vm_compute; intros H; try reflexivity; discriminate H.
Qed.

(** X4.  A table record the earlier reader accepts, with a 7-bit [ext], is
    read by the current reader with the same offset and count, and its
    four-character tag is the earlier three-character [ext] followed by
    the character of the earlier [unknownByte]. *)
Theorem legacy_record_same_table (buf : Buffer) (off : nat) (t : Legacy.Table) :
  Legacy.tableStruct buf off = Some t ->
  ext_7bit buf off = true ->
  read_tables 1 buf off
  = Some [mkTable
            (Legacy.ext t ++ String (JS.fromCharCode (Legacy.unknownByte t)) "")
            (Some (Legacy.offset t)) (Legacy.numFiles t) []].
Proof.
  unfold Legacy.tableStruct, ext_7bit, Legacy.char, slice.
  cbn [read_tables]. unfold readInt32LE at 1 2 3 4, readUInt32LE.
  replace (buf !! off) with (drop off buf !! 0%nat)
    by (rewrite lookup_drop, Nat.add_0_r; reflexivity).
  rewrite <- (drop_drop buf 1 off), <- (drop_drop buf 4 off),
    <- (drop_drop buf 8 off).
  replace (off + 1 + 3 - (off + 1))%nat with 3%nat by lia.
  replace (off + 4 - (off + 1))%nat with 3%nat by lia.
  destruct (drop off buf) as [|u [|c1 [|c2 [|c3 [|o0 [|o1 [|o2 [|o3 l]]]]]]]];
    try discriminate.
  cbn [lookup list_lookup drop take].
  destruct l as [|n0 [|n1 [|n2 [|n3 l]]]]; try discriminate.
  intros [= <-]. cbn [forallb].
  intros H. apply andb_true_iff in H as [Hc1 H].
  apply andb_true_iff in H as [Hc2 H]. apply andb_true_iff in H as [Hc3 _].
  cbn [Legacy.ext Legacy.unknownByte Legacy.offset Legacy.numFiles].
  f_equal. f_equal. f_equal.
  pose proof (byte_val_range u). pose proof (byte_val_range c1).
  pose proof (byte_val_range c2). pose proof (byte_val_range c3).
  destruct (byte_at_digits (byte_val c3) (byte_val c2) (byte_val c1) (byte_val u))
    as (Hr & E3 & E2 & E1 & E0); try assumption.
  cbv zeta in *.
  replace (byte_val u + byte_val c1 * 2 ^ 8 + byte_val c2 * 2 ^ 16
           + byte_val c3 * 2 ^ 24)
    with (byte_val c3 * 2 ^ 24 + byte_val c2 * 2 ^ 16 + byte_val c1 * 2 ^ 8
          + byte_val u) by lia.
  rewrite parseTableType_uint32 by exact Hr.
  rewrite E3, E2, E1, E0.
  unfold Legacy.reverse, toString_ascii. cbn.
  rewrite (ascii_of_buffer_byte_fromCharCode c1 Hc1),
    (ascii_of_buffer_byte_fromCharCode c2 Hc2),
    (ascii_of_buffer_byte_fromCharCode c3 Hc3). reflexivity.
Qed.

Lemma legacy_record_same_table_witness :
  let rec := (Buffer_from " pls" ++ int32LE 88 ++ int32LE 2)%list in
  option_map Legacy.ext (Legacy.tableStruct rec 0) = Some "slp" /\
  ext_7bit rec 0 = true /\
  option_map (map ext) (read_tables 1 rec 0) = Some ["slp "].
Proof.
  cbv zeta. split; [reflexivity|]. split; [reflexivity|].
  destruct (Legacy.tableStruct (Buffer_from " pls" ++ int32LE 88 ++ int32LE 2)%list 0)
    as [t|] eqn:Ht; [|discriminate Ht].
  rewrite (legacy_record_same_table _ 0 t Ht eq_refl).
  vm_compute in Ht. injection Ht as <-. reflexivity.
Defined.

Lemma string_snoc_inj (s t : string) (c d : ascii) :
  (s ++ String c "")%string = (t ++ String d "")%string -> s = t /\ c = d.
Proof.
  revert t. induction s as [|a s IH]; intros [|b t]; cbn.
  - intros [= ->]. auto.
  - destruct t; discriminate.
  - destruct s; discriminate.
  - intros [= -> H]. destruct (IH _ H) as [-> ->]. auto.
Qed.

Lemma eqb_snoc (s t : string) (c d : ascii) :
  String.eqb (s ++ String c "") (t ++ String d "")
  = String.eqb s t && Ascii.eqb c d.
Proof.
  destruct (String.eqb_spec (s ++ String c "") (t ++ String d "")) as [E|E].
  - apply string_snoc_inj in E as [-> ->].
    rewrite String.eqb_refl, Ascii.eqb_refl. reflexivity.
  - destruct (String.eqb_spec s t) as [->|Hs]; [|reflexivity].
    destruct (Ascii.eqb_spec c d) as [->|Hc]; [|reflexivity].
    destruct E. reflexivity.
Qed.

Lemma code_inj c d : code c = code d -> c = d.
Proof.
  intros H. rewrite <- (fromCharCode_code c), <- (fromCharCode_code d), H.
  reflexivity.
Qed.

(** X5.  The current [readFile] sorts a file of type [ext ++ c] as the
    earlier [readFile] sorts a file of type [ext] when [c] is the character
    [unknownByteMap] gives for [ext]; with any other fourth character, or
    an [ext] the map does not have, the file is a plain [DRSFile]. *)
Theorem legacy_classification_agrees (ext3 : string) (c : ascii) (buf : Buffer)
    (id : Z) (o s : option Z) (b : option Buffer) :
  kind_of (makeFileInst buf (mkFile id o s (ext3 ++ String c "") b))
  = match Legacy.unknownByteMap ext3 with
    | Some u =>
        if u =? code c
        then kind_of (Legacy.makeFileInst buf (mkFile id o s ext3 b))
        else Generic
    | None => Generic
    end.
Proof.
  unfold makeFileInst, Legacy.makeFileInst, Legacy.unknownByteMap.
  cbn [file_type].
  assert (Hcode : forall n d, code d = n -> (n =? code c) = Ascii.eqb c d).
  { intros n d <-. destruct (Ascii.eqb_spec c d) as [->|Hne].
    - apply Z.eqb_refl.
    - apply Z.eqb_neq. intros E. apply Hne. symmetry. apply code_inj, E. }
  change "slp " with ("slp" ++ String " " "")%string.
  change "wav " with ("wav" ++ String " " "")%string.
  change "bina" with ("bin" ++ String "a" "")%string.
  rewrite !eqb_snoc.
  destruct (String.eqb_spec ext3 "bin") as [->|Hbin].
  { change (String.eqb "bin" "slp") with false.
    change (String.eqb "bin" "wav") with false.
    cbn [andb]. rewrite (Hcode 97 "a"%char eq_refl).
    destruct (Ascii.eqb c "a"), (is_jasc_pal buf); reflexivity. }
  destruct (String.eqb_spec ext3 "slp") as [->|Hslp].
  { cbn [andb]. rewrite (Hcode 32 " "%char eq_refl).
    destruct (Ascii.eqb c " "); reflexivity. }
  destruct (String.eqb_spec ext3 "wav") as [->|Hwav].
  { cbn [andb]. rewrite (Hcode 32 " "%char eq_refl).
    destruct (Ascii.eqb c " "); reflexivity. }
  reflexivity.
Qed.

(** ** What [getTable] returns *)

(** Either some table of the list has the tag, and there is a first one, or
    none has. *)
Lemma first_match_or_none (objs : list Table) (refs : list nat) type :
  (exists refs1 r t refs2,
     refs = (refs1 ++ r :: refs2)%list /\
     (forall r' t', r' ∈ refs1 -> objs !! r' = Some t' -> ext t' <> type) /\
     objs !! r = Some t /\ ext t = type) \/
  (forall r t, r ∈ refs -> objs !! r = Some t -> ext t <> type).
Proof.
  induction refs as [|r refs IH].
  - right. intros r t Hr. inversion Hr.
  - destruct (objs !! r) as [t|] eqn:Ht.
    + destruct (String.eqb_spec (ext t) type) as [E|E].
      * left. exists [], r, t, refs. repeat split; try assumption.
        intros r' t' Hr'. inversion Hr'.
      * destruct IH as [(refs1 & r0 & t0 & refs2 & -> & Hno & Hr0 & He)|Hno].
        -- left. exists (r :: refs1), r0, t0, refs2. repeat split; try assumption.
           intros r' t' [->|Hr']%elem_of_cons Hl; [congruence | eauto].
        -- right. intros r' t' [->|Hr']%elem_of_cons Hl; [congruence | eauto].
    + destruct IH as [(refs1 & r0 & t0 & refs2 & -> & Hno & Hr0 & He)|Hno].
      * left. exists (r :: refs1), r0, t0, refs2. repeat split; try assumption.
        intros r' t' [->|Hr']%elem_of_cons Hl; [congruence | eauto].
      * right. intros r' t' [->|Hr']%elem_of_cons Hl; [congruence | eauto].
Qed.

(** [getTable] leaves a handle that has tables as it is. *)
Lemma getTable_keeps_handle (d : DRS) (type : string) :
  tables d <> [] -> (getTable d type).1 = d.
Proof.
  intros Hne. unfold getTable.
  destruct (getTable_loop (objects d) (tables d) type None) as [r|] eqn:Hl;
    [reflexivity|].
  exfalso. destruct (tables d) as [|r refs]; [congruence|].
  cbn in Hl.
  assert (Hsome : forall refs' acc,
            getTable_loop (objects d) refs' type (Some acc) <> None).
  { induction refs' as [|r' refs' IH]; intros acc; cbn; [discriminate|].
    destruct (objects d !! r') as [t|]; [|apply IH].
    destruct (String.eqb (ext t) type); [discriminate | apply IH]. }
  destruct (objects d !! r) as [t|]; [|exact (Hsome _ _ Hl)].
  destruct (String.eqb (ext t) type); [discriminate | exact (Hsome _ _ Hl)].
Qed.

(** On a handle without tables [getTable] makes the first one. *)
Lemma getTable_creates (d : DRS) (type : string) :
  tables d = [] ->
  getTable d type
  = (mkDRS (objects d ++ [mkTable type None 0 []])%list [length (objects d)]
       (fd d) (isSWGB d) (header d) (Some 1),
     length (objects d)).
Proof.
  intros Ht. unfold getTable. rewrite Ht. cbn.
  unfold set_numTables, set_tables, set_objects. cbn. rewrite Ht. reflexivity.
Qed.

(** X6.  [getTable] creates a table only on a handle that has none: the new
    table, with the tag asked for, no entry and a count of 0, becomes the
    only table and [numTables] becomes 1.  On a handle that has tables
    nothing changes, and the table returned is the first one with the tag
    or, when no table has the tag, the last table of the list. *)
Theorem getTable_cases (d : DRS) (type : string) :
  (tables d = [] ->
   getTable d type
   = (mkDRS (objects d ++ [mkTable type None 0 []])%list [length (objects d)]
        (fd d) (isSWGB d) (header d) (Some 1),
      length (objects d))) /\
  (tables d <> [] ->
   (getTable d type).1 = d /\
   ((exists refs1 t refs2,
       tables d = (refs1 ++ (getTable d type).2 :: refs2)%list /\
       (forall r' t', r' ∈ refs1 -> objects d !! r' = Some t' -> ext t' <> type) /\
       objects d !! (getTable d type).2 = Some t /\ ext t = type) \/
    ((forall t, t ∈ table_list d -> ext t <> type) /\
     last (tables d) = Some (getTable d type).2))).
Proof.
  split.
  - apply getTable_creates.
  - intros Hne.
    destruct (first_match_or_none (objects d) (tables d) type)
      as [(refs1 & r & t & refs2 & Ht & Hno & Hr & He)|Hno].
    + rewrite (getTable_with_match d type refs1 r t refs2 Ht Hno Hr He). cbn.
      split; [reflexivity|]. left. exists refs1, t, refs2. auto.
    + destruct (exists_last Hne) as (refs & r0 & Ht).
      assert (Hno' : forall t, t ∈ table_list d -> ext t <> type).
      { intros t. unfold table_list.
        intros (r & Hr & Hl)%list_elem_of_omap. eauto. }
      rewrite (getTable_without_match d type refs r0 Ht Hno'). cbn.
      split; [reflexivity|]. right. split; [exact Hno'|].
      rewrite Ht. apply last_snoc.
Qed.

Lemma getTable_cases_witness :
  tables (drs builder_with_slp) <> [] /\
  getTable (drs builder_with_slp) "wav " = (drs builder_with_slp, 0%nat) /\
  tables DRS_new = [] /\
  tables (getTable DRS_new "wav ").1 = [0%nat].
Proof.
  assert (H1 : tables (drs builder_with_slp) <> []) by (vm_compute; discriminate).
  destruct (getTable_cases (drs builder_with_slp) "wav ") as [_ Hb].
  destruct (getTable_cases DRS_new "wav ") as [Ha _].
  split; [exact H1|]. split.
  - destruct (Hb H1) as [E _].
    apply injective_projections; [exact E | reflexivity].
  - split; [reflexivity|]. rewrite (Ha eq_refl). reflexivity.
Defined.

(** X8.  [putFile] with data that is neither a buffer nor a stream throws
    and queues nothing; [getTable] has run by then, so on a handle without
    tables the table for the type has been created all the same, and on any
    other handle nothing has changed. *)
Theorem putFile_rejects_other_data (w : World) (type : string) (id : Z)
    (cb : callback) :
  let w' := putFile type id data_other cb w in
  queue w' = queue w /\ log w' = (log w ++ [ev_throw])%list /\
  (tables (drs w) <> [] -> drs w' = drs w) /\
  (tables (drs w) = [] ->
   table_list (drs w') = [mkTable type None 0 []] /\ numTables (drs w') = Some 1).
Proof.
  cbv zeta. unfold putFile.
  pose proof (getTable_keeps_handle (drs w) type) as Hsome.
  pose proof (getTable_creates (drs w) type) as Hempty.
  destruct (getTable (drs w) type) as [d table] eqn:Hg. cbn.
  split; [reflexivity|]. split; [reflexivity|]. split.
  - intros Hne. exact (Hsome Hne).
  - intros He. specialize (Hempty He). injection Hempty as -> ->.
    split; [|reflexivity]. unfold table_list. cbn.
    rewrite lookup_app_r by lia. rewrite Nat.sub_diag. reflexivity.
Qed.

Lemma putFile_rejects_other_data_witness :
  tables (drs (World_new [])) = [] /\
  table_list (drs (putFile "slp " 1 data_other (cb_user 0) (World_new [])))
  = [mkTable "slp " None 0 []].
Proof.
  split; [reflexivity|].
  destruct (putFile_rejects_other_data (World_new []) "slp " 1 (cb_user 0))
    as (_ & _ & _ & H).
  destruct (H eq_refl) as [E _]. exact E.
Defined.

(** ** The tables of a builder *)

(** On a builder there is no table, or one table that is the only table
    object. *)
Lemma built_shape (w : World) :
  built w ->
  (tables (drs w) = [] /\ objects (drs w) = [] /\ numTables (drs w) = None) \/
  (tables (drs w) = [0%nat] /\ length (objects (drs w)) = 1%nat /\
   numTables (drs w) = Some 1).
Proof.
  intros Hb. pose proof (built_counts w Hb) as [_ Hq].
  induction Hb as [|a w Hb IH Ha]; [left; auto|].
  pose proof (built_counts w Hb) as [_ Hqw]. specialize (IH Hqw).
  assert (Hget : forall type,
            let d := (getTable (drs w) type).1 in
            tables d = [0%nat] /\ length (objects d) = 1%nat /\
            numTables d = Some 1).
  { intros type. cbv zeta.
    destruct IH as [(Ht & Ho & Hn)|(Ht & Ho & Hn)].
    - rewrite (getTable_creates _ _ Ht). cbn. rewrite Ho. auto.
    - rewrite getTable_keeps_handle by (rewrite Ht; discriminate). auto. }
  assert (Hpush : forall f table,
            (tables (drs w) = [] /\
             alter (push_file f) table (objects (drs w)) = [] /\
             numTables (drs w) = None) \/
            (tables (drs w) = [0%nat] /\
             length (alter (push_file f) table (objects (drs w))) = 1%nat /\
             numTables (drs w) = Some 1)).
  { intros f table. destruct IH as [(Ht & Ho & Hn)|(Ht & Ho & Hn)].
    - left. rewrite Ho. auto.
    - right. rewrite length_alter. auto. }
  destruct a; try discriminate Ha; cbn [step].
  - right. unfold putFile. specialize (Hget type).
    destruct (getTable (drs w) type) as [d table]. destruct data; exact Hget.
  - right. unfold createWriteStream. specialize (Hget type).
    destruct (getTable (drs w) type) as [d table]. exact Hget.
  - destruct (queue w !! i) as [[]|]; exact IH.
  - destruct (queue w !! i) as [p|] eqn:Hp; [|exact IH].
    assert (Hbp : builder_pending p).
    { rewrite Forall_forall in Hqw. eapply Hqw, list_elem_of_lookup_2, Hp. }
    destruct p as [| | | | |file table data cb|file table chunks cb
                   |file table stream data|]; try destruct cb;
      try destruct Hbp; cbn [complete]; try destruct err; cbn;
      first [exact IH | apply Hpush].
Qed.

(** X7.  A handle that only builds never has more than one table: the
    first [putFile] or [createWriteStream] creates one, and every later
    call, whatever its type, gets that table from [getTable].  [numTables]
    is unset before and 1 after, and every table object is in the list. *)
Theorem builder_has_one_table (w : World) :
  built w ->
  (length (tables (drs w)) <= 1)%nat /\
  table_list (drs w) = objects (drs w) /\
  numTables (drs w)
  = (if decide (tables (drs w) = []) then None else Some 1).
Proof.
  intros [(Ht & Ho & Hn)|(Ht & Ho & Hn)]%built_shape;
    unfold table_list; rewrite Ht, Hn.
  - rewrite Ho. cbn. auto.
  - destruct (objects (drs w)) as [|t [|t' l]]; try discriminate Ho.
    cbn. auto.
Qed.

Lemma builder_has_one_table_witness :
  built builder_with_stream /\ table_list (drs builder_with_stream)
                               = objects (drs builder_with_stream).
Proof.
  assert (H : built builder_with_stream).
  { unfold builder_with_stream, builder_with_slp, run. cbn [fold_left].
    repeat (apply built_step; [|reflexivity]). apply built_new. }
  split; [exact H|].
  destruct (builder_has_one_table _ H) as (_ & E & _). exact E.
Defined.

(** ** Adding an entry and looking it up *)

Lemma built_reachable w : built w -> reachable [] w.
Proof.
  induction 1 as [|a w _ IH _]; [constructor | constructor; exact IH].
Qed.

(** Completing a pending call of a builder without an error pushes its
    entry on the one table and changes nothing else on the handle. *)
Lemma builder_complete_pushes (w : World) (i : nat) (p : pending) (e : File) :
  built w -> queue w !! i = Some p -> pending_entry_of p = Some e ->
  exists t,
    objects (drs w) = [t] /\ table_list (drs w) = [t] /\
    numFiles t = Z.of_nat (length (files t)) /\
    drs (step (a_complete i false) w)
    = set_objects [push_file e t] (drs w).
Proof.
  intros Hb Hp He.
  pose proof (built_counts w Hb) as [Hc Hq].
  pose proof (reachable_Inv _ _ (built_reachable w Hb)) as HI.
  assert (Hbp : builder_pending p).
  { rewrite Forall_forall in Hq. eapply Hq, list_elem_of_lookup_2, Hp. }
  assert (Hpo : pending_ok (objects (drs w)) p).
  { pose proof (inv_queue w HI) as Hq'. rewrite Forall_forall in Hq'.
    eapply Hq', list_elem_of_lookup_2, Hp. }
  destruct (built_shape w Hb) as [(Ht & Ho & Hn)|(Ht & Ho & Hn)].
  { exfalso. rewrite Ho in Hpo.
    destruct p; try discriminate He; specialize (Hpo _ eq_refl); cbn in Hpo; lia. }
  destruct (objects (drs w)) as [|t [|t' l]] eqn:Hobjs; try discriminate Ho.
  exists t. split; [reflexivity|]. split.
  { unfold table_list. rewrite Ht, Hobjs. reflexivity. }
  split.
  { inversion Hc. assumption. }
  cbn [step]. rewrite Hp.
  destruct p as [| | | | |file table data cb|file table chunks cb
                 |file table stream data|]; try discriminate He;
    try destruct cb; try destruct Hbp;
    specialize (Hpo _ eq_refl); cbn in Hpo;
    apply Nat.lt_1_r in Hpo as ->;
    injection He as <-; cbn; rewrite Hobjs; reflexivity.
Qed.

Lemma getFile_one_table (d : DRS) (t : Table) (id : Z) :
  table_list d = [t] -> numFiles t = Z.of_nat (length (files t)) ->
  getFile d id
  = match List.find (fun f => file_id f =? id) (files t) with
    | Some f => Found f
    | None => NotFound
    end.
Proof.
  intros Ht Hc. unfold getFile. rewrite Ht.
  rewrite getFile_outer_find by (repeat constructor; exact Hc).
  cbn. rewrite app_nil_r. reflexivity.
Qed.

(** X9.  On a builder, once a pending [putFile] or write stream completes
    without an error: a lookup of the id of the new entry finds that entry,
    with its payload and its size, when the id was not there before; it
    keeps finding the earlier entry when the id was there already (the new
    entry is stored behind it); and lookups of other ids are unchanged. *)
Theorem lookup_after_putFile (w : World) (i : nat) (p : pending) (e : File) :
  built w -> queue w !! i = Some p -> pending_entry_of p = Some e ->
  let w' := step (a_complete i false) w in
  (getFile (drs w) (file_id e) = NotFound -> getFile (drs w') (file_id e) = Found e) /\
  (forall f, getFile (drs w) (file_id e) = Found f ->
     getFile (drs w') (file_id e) = Found f) /\
  (forall id, id <> file_id e -> getFile (drs w') id = getFile (drs w) id) /\
  In e (getFiles (drs w')).
Proof.
  intros Hb Hp He. cbv zeta.
  destruct (builder_complete_pushes w i p e Hb Hp He) as (t & Ho & Ht & Hc & Hd).
  assert (Ht' : table_list (drs (step (a_complete i false) w)) = [push_file e t]).
  { rewrite Hd. unfold table_list. cbn.
    destruct (built_shape w Hb) as [(E & E' & _)|(-> & _)]; [congruence|].
    reflexivity. }
  assert (E' : forall id,
             getFile (drs (step (a_complete i false) w)) id
             = match List.find (fun f => file_id f =? id) (files t) with
               | Some f => Found f
               | None => if file_id e =? id then Found e else NotFound
               end).
  { intros id. rewrite (getFile_one_table _ _ id Ht' (push_file_count e t)).
    cbn [files push_file]. rewrite find_app_first.
    destruct (List.find _ (files t)); [reflexivity|]. cbn.
    destruct (file_id e =? id); reflexivity. }
  assert (E : forall id,
            getFile (drs w) id
            = match List.find (fun f => file_id f =? id) (files t) with
              | Some f => Found f
              | None => NotFound
              end) by (intros id; apply getFile_one_table; assumption).
  repeat split.
  - rewrite E, E'. destruct (List.find _ (files t)); [discriminate|].
    rewrite Z.eqb_refl. reflexivity.
  - intros f. rewrite E, E'. destruct (List.find _ (files t)); [auto | discriminate].
  - intros id Hid. rewrite E, E'. destruct (List.find _ (files t)); [reflexivity|].
    destruct (Z.eqb_spec (file_id e) id); [congruence | reflexivity].
  - rewrite getFiles_concat, Ht'. cbn. rewrite app_nil_r.
    apply in_or_app. right. left. reflexivity.
Qed.

Lemma lookup_after_putFile_witness :
  built builder_with_stream /\
  getFile (drs (step (a_complete 0 false) builder_with_stream)) 2
  = Found (with_buffer (newFile "wav " 2) (hello ++ hello)%list).
Proof.
  assert (H : built builder_with_stream).
  { unfold builder_with_stream, builder_with_slp, run. cbn [fold_left].
    repeat (apply built_step; [|reflexivity]). apply built_new. }
  split; [exact H|].
  destruct (lookup_after_putFile builder_with_stream 0
              (p_concat (newFile "wav " 2) 0 [hello; hello] (cb_user 1))
              (with_buffer (newFile "wav " 2) (hello ++ hello)%list)
              H eq_refl eq_refl) as (E & _).
  apply E. reflexivity.
Defined.

(** ** Counting and sizes *)

Lemma fold_left_count (ts : list Table) (acc : Z) :
  fold_left (fun a t => a + Z.of_nat (length (files t))) ts acc
  = acc + Z.of_nat (length (concat (map files ts))).
Proof.
  revert acc. induction ts as [|t ts IH]; intros acc; cbn.
  - lia.
  - rewrite IH, length_app. lia.
Qed.

Lemma fold_left_sizes (fs : list File) (acc : Z) :
  fold_left (fun size f => size + size_or_0 f) fs acc
  = acc + fold_right (fun f s => size_or_0 f + s) 0 fs.
Proof.
  revert acc. induction fs as [|f fs IH]; intros acc; cbn.
  - lia.
  - rewrite IH. lia.
Qed.

(** X11.  [getFileCount] is the number of entries [getFiles] lists, and
    [getSize] is the header size of the variant, 12 bytes for each table
    and each listed entry, and the sizes of the listed entries, an entry
    without a size counting for nothing. *)
Theorem getFileCount_getFiles (d : DRS) :
  getFileCount d = Z.of_nat (length (getFiles d)) /\
  getSize d
  = (if decide (isSWGB d = Some true) then 84 else 64)
    + 12 * Z.of_nat (length (tables d))
    + 12 * Z.of_nat (length (getFiles d))
    + fold_right (fun f s => size_or_0 f + s) 0 (getFiles d).
Proof.
  assert (E : getFileCount d = Z.of_nat (length (getFiles d))).
  { unfold getFileCount. rewrite fold_left_count, getFiles_concat. lia. }
  split; [exact E|].
  unfold getSize. rewrite E, fold_left_sizes.
  unfold HEADER_SIZE_SWGB, HEADER_SIZE_AOE, TABLE_META_SIZE, FILE_META_SIZE.
  destruct (isSWGB d) as [[|]|]; destruct (decide _) as [H|H];
    try discriminate H; try (exfalso; apply H; reflexivity); lia.
Qed.

(** X10.  On a builder, a pending [putFile] or write stream that completes
    without an error adds one entry to the count and, to [getSize], the 12
    bytes of a directory record and the length of the payload. *)
Theorem getSize_after_putFile (w : World) (i : nat) (p : pending) (e : File)
    (payload : Buffer) :
  built w -> queue w !! i = Some p -> pending_entry_of p = Some e ->
  file_buffer e = Some payload ->
  let w' := step (a_complete i false) w in
  getFileCount (drs w') = getFileCount (drs w) + 1 /\
  getSize (drs w') = getSize (drs w) + 12 + Z.of_nat (length payload).
Proof.
  intros Hb Hp He Hpay. cbv zeta.
  destruct (builder_complete_pushes w i p e Hb Hp He) as (t & Ho & Ht & Hc & Hd).
  assert (Ht' : table_list (drs (step (a_complete i false) w)) = [push_file e t]).
  { rewrite Hd. unfold table_list. cbn.
    destruct (built_shape w Hb) as [(E & E' & _)|(-> & _)]; [congruence|].
    reflexivity. }
  assert (Hsize : size_or_0 e = Z.of_nat (length payload)).
  { destruct p; try discriminate He; injection He as <-;
      cbn in Hpay; injection Hpay as <-; reflexivity. }
  unfold getSize, getFileCount, getFiles. rewrite Ht, Ht', Hd. cbn.
  rewrite !fold_left_app. cbn. rewrite length_app, Hsize. cbn.
  unfold FILE_META_SIZE. split; lia.
Qed.

Lemma getSize_after_putFile_witness :
  built builder_with_stream /\
  getSize (drs (step (a_complete 0 false) builder_with_stream))
  = getSize (drs builder_with_stream) + 12 + 10.
Proof.
  assert (H : built builder_with_stream).
  { unfold builder_with_stream, builder_with_slp, run. cbn [fold_left].
    repeat (apply built_step; [|reflexivity]). apply built_new. }
  split; [exact H|].
  destruct (getSize_after_putFile builder_with_stream 0
              (p_concat (newFile "wav " 2) 0 [hello; hello] (cb_user 1))
              (with_buffer (newFile "wav " 2) (hello ++ hello)%list)
              (hello ++ hello)%list H eq_refl eq_refl eq_refl) as (_ & E).
  exact E.
Defined.

(** ** Payloads that arrive in chunks *)

Lemma length_concat_chunks (chunks : list Buffer) :
  length (concat chunks) = fold_right (fun c n => (length c + n)%nat) 0%nat chunks.
Proof.
  induction chunks as [|c chunks IH]; [reflexivity|].
  cbn. rewrite length_app, IH. reflexivity.
Qed.

(** X12.  [putFile] with a stream: when the stream ends, the entry is
    pushed with the chunks concatenated in order as its payload and the sum
    of their lengths as its size, and the callback gets that entry; when
    the stream fails, the callback gets the error and the handle is left as
    it was. *)
Theorem putFile_stream_completion (w : World) (file : File) (table k : nat)
    (chunks : list Buffer) (t : Table) :
  objects (drs w) !! table = Some t ->
  let p := p_concat file table chunks (cb_user k) in
  let e := with_buffer file (concat chunks) in
  (let w' := complete p false w in
   objects (drs w') = <[table := push_file e t]> (objects (drs w)) /\
   file_size e
   = Some (Z.of_nat (fold_right (fun c n => (length c + n)%nat) 0%nat chunks)) /\
   log w' = (log w ++ [ev_callback k (r_file e)])%list /\ queue w' = queue w) /\
  (let w' := complete p true w in
   drs w' = drs w /\ log w' = (log w ++ [ev_callback k r_err])%list /\
   queue w' = queue w).
Proof.
  intros Ht. cbv zeta. cbn [complete onbuffer invoke]. split.
  - cbn. split; [|split; [|split; reflexivity]].
    + apply list_eq. intros j. destruct (decide (j = table)) as [->|Hne].
      * rewrite list_lookup_alter_eq, Ht.
        rewrite list_lookup_insert_eq by (eapply lookup_lt_Some, Ht).
        reflexivity.
      * rewrite list_lookup_alter_ne, list_lookup_insert_ne by congruence.
        reflexivity.
    + rewrite length_concat_chunks. reflexivity.
  - cbn. destruct w as [d ? ? ? ?]. auto.
Qed.

Lemma putFile_stream_completion_witness :
  objects (drs builder_with_stream) !! 0%nat
  = Some (mkTable "slp " None 1 [with_buffer (newFile "slp " 1) hello]) /\
  file_size (with_buffer (newFile "wav " 2) (concat [hello; hello])) = Some 10.
Proof.
  assert (H : objects (drs builder_with_stream) !! 0%nat
              = Some (mkTable "slp " None 1 [with_buffer (newFile "slp " 1) hello]))
    by reflexivity.
  split; [exact H|].
  destruct (putFile_stream_completion builder_with_stream (newFile "wav " 2)
              0 1 [hello; hello] _ H) as [(_ & E & _) _].
  exact E.
Defined.




(** ** What a lookup can answer *)

Lemma getFile_inner_sound n i fs id r :
  getFile_inner n i fs id = Some r ->
  match r with
  | Found f => f ∈ fs /\ file_id f = id
  | NotFound => False
  | LookupThrows => (length fs < i + n)%nat
  end.
Proof.
  revert i. induction n as [|n IH]; intros i; cbn; [discriminate|].
  destruct (fs !! i) as [g|] eqn:Hg.
  - destruct (Z.eqb_spec (file_id g) id) as [E|E].
    + intros [= <-]. split; [|exact E]. apply list_elem_of_lookup. eauto.
    + intros H. specialize (IH _ H). destruct r; try exact IH. lia.
  - intros [= <-]. apply lookup_ge_None in Hg. lia.
Qed.

(** X16.  Whatever the state of the handle, an entry [getFile(id)] returns
    has the id asked for and is one of those [getFiles] lists; and
    [getFile] throws only on a handle where some table has a count above
    the number of its entries. *)
Theorem getFile_sound (d : DRS) (id : Z) :
  (forall f, getFile d id = Found f -> file_id f = id /\ In f (getFiles d)) /\
  (getFile d id = LookupThrows ->
   exists t, t ∈ table_list d /\ Z.of_nat (length (files t)) < numFiles t).
Proof.
  unfold getFile. rewrite getFiles_concat.
  induction (table_list d) as [|t ts [IH1 IH2]]; cbn [getFile_outer].
  - split; [discriminate|discriminate].
  - destruct (getFile_inner _ 0 (files t) id) as [r|] eqn:Hr.
    + apply getFile_inner_sound in Hr. split.
      * intros f ->. destruct Hr as [Hin Hid]. split; [exact Hid|].
        cbn. apply in_or_app. left. apply list_elem_of_In, Hin.
      * intros ->. exists t. split; [left|]. lia.
    + split.
      * intros f Hf. destruct (IH1 f Hf) as [Hid Hin]. split; [exact Hid|].
        cbn. apply in_or_app. right. exact Hin.
      * intros Hthrow. destruct (IH2 Hthrow) as (t' & Ht' & Hlt).
        exists t'. split; [right; exact Ht' | exact Hlt].
Qed.

(** ** The two read paths on an entry that is on disk *)

Lemma fs_read_inside disk len pos :
  (pos + len <= length disk)%nat -> fs_read disk len pos = take len (drop pos disk).
Proof.
  intros H. unfold fs_read.
  rewrite length_take, length_drop.
  replace (len - len `min` (length disk - pos))%nat with 0%nat by lia.
  apply app_nil_r.
Qed.

(** X17.  For an entry without a payload in memory that lies inside the
    file, with a size of at least one byte, on an open handle whose
    directory is loaded: [createReadStream] delivers the [size] bytes of the
    file from [offset] on, and so does [readFile] when [size] is a size
    [Buffer.alloc] accepts, at most [kMaxLength]. *)
Theorem read_paths_agree_on_disk (w : World) (id : Z) (k stream : nat)
    (file : File) (o s f : Z) :
  JS.falsy (numTables (drs w)) = false ->
  getFile (drs w) id = Found file ->
  file_buffer file = None -> file_offset file = Some o -> file_size file = Some s ->
  fd (drs w) = Some f ->
  0 <= o -> 1 <= s -> o + s <= Z.of_nat (length (disk w)) ->
  let i := length (queue w) in
  let bytes := take (Z.to_nat s) (drop (Z.to_nat o) (disk w)) in
  length bytes = Z.to_nat s /\
  (s <= kMaxLength ->
   log (step (a_complete i false) (step (a_readFile id k) w))
   = (log w ++ [ev_callback k (r_inst (makeFileInst bytes file))])%list) /\
  log (step (a_complete i false) (step (a_createReadStream id stream) w))
  = (log w ++ [ev_stream_meta stream (Some file); ev_stream_data stream bytes])%list.
Proof.
  intros Hn Hg Hb Ho Hs Hf Ho0 Hs1 Hin. cbv zeta. split.
  { rewrite length_take, length_drop. lia. }
  split.
  - intros Hmax. cbn [step]. unfold readFile, readFile_body.
    rewrite Hn, Hg, Hs, Hf, Ho. unfold alloc_len.
    destruct (Z.ltb_spec s 0) as [?|_]; [lia|].
    destruct (Z.ltb_spec kMaxLength s) as [?|_]; [lia|].
    cbn [orb queue schedule set_queue].
    rewrite list_lookup_middle by reflexivity.
    cbn [complete]. unfold onFileRead.
    destruct (Z.leb_spec 0 o) as [_|?]; [|lia].
    cbn. rewrite fs_read_inside by lia. reflexivity.
  - cbn [step]. unfold createReadStream, onread.
    rewrite Hn, Hg, Hb, Ho, Hs.
    destruct (Z.leb_spec 0 o) as [_|?]; [|lia].
    destruct (Z.leb_spec o (o + s - 1)) as [_|?]; [|lia].
    cbn [andb queue schedule set_queue emit].
    rewrite list_lookup_middle by reflexivity.
    cbn. unfold fs_stream.
    replace (S (Z.to_nat (o + s - 1)) - Z.to_nat o)%nat with (Z.to_nat s) by lia.
    rewrite <- app_assoc. reflexivity.
Qed.

Lemma read_paths_agree_on_disk_witness :
  getFile (drs loaded_world) 7 = Found (mkFile 7 (Some 88) (Some 5) "bina" None) /\
  log (step (a_complete 0 false) (step (a_createReadStream 7 2%nat) loaded_world))
  = (log loaded_world
     ++ [ev_stream_meta 2 (Some (mkFile 7 (Some 88) (Some 5) "bina" None));
         ev_stream_data 2 hello])%list.
Proof.
  assert (H : getFile (drs loaded_world) 7
              = Found (mkFile 7 (Some 88) (Some 5) "bina" None)) by reflexivity.
  split; [exact H|].
  destruct (read_paths_agree_on_disk loaded_world 7 0%nat 2%nat _ 88 5 3
              eq_refl H eq_refl eq_refl eq_refl eq_refl)
    as (_ & _ & E); [lia | lia | vm_compute; discriminate |].
  exact E.
Defined.

(** ** An archive without tables *)

(** One load on an archive whose header says that there is no table, for a
    waiting [readFile]: the three reads complete, [numTables] is 0,
    [readFile] runs again, finds [numTables] falsy and starts the next
    load. *)
Lemma retry_cycle (w : World) (f id : Z) (cb : callback) sw h n :
  queue w = [p_header f (cb_readFile_retry id cb)] ->
  fd (drs w) = Some f ->
  parse_header (fs_read (disk w) 84 0) = Some (sw, h, n) ->
  hdr_numTables h = 0 ->
  let w' := run [a_complete 0 false; a_complete 0 false; a_complete 0 false] w in
  queue w' = queue w /\ fd (drs w') = Some f /\ disk w' = disk w /\
  log w' = log w /\ numTables (drs w') = Some 0 /\ table_list (drs w') = [].
Proof.
  intros Hq Hf Hp Hn. cbv zeta.
  destruct w as [[objs tbls fd0 sw0 hd0 nt0] dk ps q lg sn].
  destruct h as [cr fv ft nt ffo].
  cbn in Hq, Hf, Hn. cbn [disk] in Hp. subst q fd0 nt.
  unfold run. cbn [fold_left].
  cbn [step queue lookup list_lookup complete delete list_delete set_queue].
  unfold onHeader. change (Z.to_nat HEADER_SIZE_SWGB) with 84%nat.
  cbn [disk set_queue]. rewrite Hp.
  do 4 (cbn; rewrite ?Z.mul_0_r; change (Z.to_nat 0) with 0%nat).
  repeat split.
Qed.

(** X18.  On an archive whose header declares no table, [readFile] never
    calls back: a load that completes leaves [numTables] at 0, which
    [readFile] takes for "not loaded yet", so each load is followed by
    another one, however many complete. *)
Theorem readFile_without_tables_never_calls_back (w : World) (f id : Z)
    (cb : callback) sw h n (loads : nat) :
  queue w = [p_header f (cb_readFile_retry id cb)] ->
  fd (drs w) = Some f ->
  parse_header (fs_read (disk w) 84 0) = Some (sw, h, n) ->
  hdr_numTables h = 0 ->
  let w' := run (concat (repeat [a_complete 0 false; a_complete 0 false;
                                 a_complete 0 false] loads)) w in
  log w' = log w /\ queue w' = [p_header f (cb_readFile_retry id cb)].
Proof.
  intros Hq Hf Hp Hn. cbv zeta. revert w Hq Hf Hp.
  induction loads as [|loads IH]; intros w Hq Hf Hp.
  - cbn. auto.
  - cbn [repeat concat]. unfold run. rewrite fold_left_app.
    destruct (retry_cycle w f id cb sw h n Hq Hf Hp Hn)
      as (Hq' & Hf' & Hd' & Hl' & _).
    cbv zeta in *. unfold run in Hq', Hf', Hd', Hl'.
    set (w1 := fold_left _ [_; _; _] w) in *.
    destruct (IH w1) as [E1 E2].
    + rewrite Hq'. exact Hq.
    + exact Hf'.
    + rewrite Hd'. exact Hp.
    + unfold run in E1, E2. rewrite E1, E2, Hl'. auto.
Qed.

Lemma readFile_without_tables_never_calls_back_witness :
  queue retrying_world = [p_header 3 (cb_readFile_retry 7 (cb_user 0))] /\
  log (run (concat (repeat [a_complete 0 false; a_complete 0 false;
                            a_complete 0 false] 2)) retrying_world) = [].
Proof.
  assert (Hq : queue retrying_world = [p_header 3 (cb_readFile_retry 7 (cb_user 0))])
    by reflexivity.
  split; [exact Hq|].
  destruct (parse_header (fs_read (disk retrying_world) 84 0))
    as [[[sw h] n]|] eqn:Hp; [|vm_compute in Hp; discriminate Hp].
  assert (Hn : hdr_numTables h = 0).
  { vm_compute in Hp. injection Hp as _ <- _. reflexivity. }
  destruct (readFile_without_tables_never_calls_back retrying_world 3 7
              (cb_user 0) sw h n 2 Hq eq_refl Hp Hn) as [E _].
  exact E.
Defined.

(** ** Loading the directory *)

Lemma read_tables_Some n (buf : Buffer) off :
  (off + 12 * n <= length buf)%nat -> exists ts, read_tables n buf off = Some ts.
Proof.
  revert off. induction n as [|n IH]; intros off H; cbn [read_tables]; [eauto|].
  destruct (readUInt32LE_Some buf off) as [e ->]; [lia|].
  destruct (readInt32LE_Some buf (off + 4)) as [o ->]; [lia|].
  destruct (readInt32LE_Some buf (off + 8)) as [nf ->]; [lia|].
  destruct (IH (off + 12)%nat) as [ts ->]; [lia|]. eauto.
Qed.

(** The tables [onTableInfo] has just made are the list it stores. *)
Lemma table_list_fresh (objs ts : list Table) :
  omap (fun r => (objs ++ ts)%list !! r) (seq (length objs) (length ts)) = ts.
Proof.
  revert objs. induction ts as [|t ts IH]; intros objs; [reflexivity|].
  cbn [length seq]. cbn.
  rewrite list_lookup_middle by reflexivity.
  specialize (IH (objs ++ [t])%list).
  rewrite length_app, <- app_assoc in IH. cbn in IH.
  rewrite Nat.add_1_r in IH. rewrite IH. reflexivity.
Qed.

(** X14.  With the 12 bytes per table [onHeader] asked for, the table
    directory always parses in [onTableInfo], also on a file that ends
    early (the bytes it lacks read as zero): [numTables] new tables without
    entries become the tables of the handle in place of the earlier ones.
    What follows depends on the file counts of these tables: when 12 times
    their sum is a size [Buffer.alloc] accepts, from 0 to [kMaxLength], the
    read of the file directory is issued and nothing reaches the caller;
    when the sum is negative, [Buffer.alloc] throws, with the new tables in
    place and no read issued.  The callback is not invoked at this stage
    in either case. *)
Theorem onTableInfo_reads_numTables (w : World) (f : Z) (off : nat)
    (cb : callback) (n : Z) :
  numTables (drs w) = Some n -> 0 <= n ->
  let len := Z.to_nat (TABLE_META_SIZE * n) in
  let w' := onTableInfo f off len cb false w in
  exists ts,
    read_tables (Z.to_nat n) (fs_read (disk w) len off) 0 = Some ts /\
    length ts = Z.to_nat n /\ Forall (fun t => files t = []) ts /\
    objects (drs w') = (objects (drs w) ++ ts)%list /\
    table_list (drs w') = ts /\ NoDup (tables (drs w')) /\
    let size := FILE_META_SIZE * fold_left (fun total t => total + numFiles t) ts 0 in
    (0 <= size <= kMaxLength ->
     log w' = log w /\
     queue w' = (queue w ++ [p_tables f (off + len) (Z.to_nat size) cb])%list) /\
    (size < 0 ->
     log w' = (log w ++ [ev_throw])%list /\ queue w' = queue w).
Proof.
  intros Hn Hpos. cbv zeta.
  destruct (read_tables_Some (Z.to_nat n)
              (fs_read (disk w) (Z.to_nat (TABLE_META_SIZE * n)) off) 0)
    as [ts Hts].
  { rewrite length_fs_read. unfold TABLE_META_SIZE. lia. }
  exists ts. split; [exact Hts|].
  split; [eapply read_tables_length, Hts|].
  split; [eapply read_tables_empty, Hts|].
  unfold onTableInfo. rewrite Hn. cbn [array_count]. rewrite Hts. cbv zeta.
  rewrite length_fs_read. unfold alloc_len.
  set (size := FILE_META_SIZE * fold_left _ ts 0).
  destruct (Z.ltb_spec size 0) as [Hneg|Hnn];
    [|destruct (Z.ltb_spec kMaxLength size) as [Hbig|Hfit]];
    cbn;
    (split; [reflexivity|]);
    (split; [unfold table_list; cbn; apply table_list_fresh|]);
    (split; [apply NoDup_seq|]);
    (split; [intros Hsize | intros Hsize]);
    first [lia | auto].
Qed.

Lemma onTableInfo_reads_numTables_witness :
  let w := run [a_read 0%nat; a_complete 0 false; a_complete 0 false]
             (World_new sample_archive) in
  numTables (drs w) = Some 1 /\
  table_list (drs (onTableInfo 3 64 12 (cb_user 0) false w))
  = [mkTable "bina" (Some 76) 1 []] /\
  queue (onTableInfo 3 64 12 (cb_user 0) false w)
  = (queue w ++ [p_tables 3 76 12 (cb_user 0)])%list.
Proof.
  cbv zeta.
  set (w := run [a_read 0%nat; a_complete 0 false; a_complete 0 false]
              (World_new sample_archive)).
  assert (H : numTables (drs w) = Some 1) by reflexivity.
  destruct (onTableInfo_reads_numTables w 3 64 (cb_user 0) 1 H ltac:(lia))
    as (ts & Hts & _ & _ & _ & E & _ & Hq & _).
  cbv zeta in E, Hq.
  change (Z.to_nat (TABLE_META_SIZE * 1)) with 12%nat in E, Hts, Hq.
  vm_compute in Hts. injection Hts as <-.
  split; [exact H|]. split; [exact E|].
  destruct Hq as [_ Hq]; [vm_compute; split; discriminate|].
  rewrite Hq. reflexivity.
Defined.

Lemma read_files_Some n (buf : Buffer) off type :
  (off + 12 * n <= length buf)%nat ->
  exists fs, read_files n buf off type = (fs, (off + 12 * n)%nat, true).
Proof.
  revert off. induction n as [|n IH]; intros off H; cbn [read_files].
  - exists []. do 2 f_equal. lia.
  - destruct (readInt32LE_Some buf off) as [i ->]; [lia|].
    destruct (readInt32LE_Some buf (off + 4)) as [o ->]; [lia|].
    destruct (readInt32LE_Some buf (off + 8)) as [s ->]; [lia|].
    destruct (IH (off + 12)%nat) as [fs ->]; [lia|].
    eexists. do 2 f_equal. lia.
Qed.

Lemma declared_files_alter (objs : list Table) refs r g :
  r ∉ refs -> declared_files (alter g r objs) refs = declared_files objs refs.
Proof.
  induction refs as [|r' refs IH]; intros Hr; [reflexivity|].
  cbn. rewrite list_lookup_alter_ne by (intros ->; apply Hr; left).
  rewrite IH by (intros H; apply Hr; right; exact H). reflexivity.
Qed.

(** The loop of [onTables] on tables that wait for their files, with a
    buffer that holds all the records announced: it runs to its end, each
    table of the list gets the entries its count announces, all with its
    tag, and the other table objects stay as they are. *)
Lemma onTables_loop_fills (refs : list nat) :
  forall (objs : list Table) (buf : Buffer) (off : nat),
    NoDup refs ->
    (forall r, r ∈ refs ->
       exists t, objs !! r = Some t /\ files t = [] /\ 0 <= numFiles t) ->
    (off + 12 * declared_files objs refs <= length buf)%nat ->
    exists objs',
      onTables_loop refs objs buf off = (objs', true) /\
      length objs' = length objs /\
      (forall r, r ∉ refs -> objs' !! r = objs !! r) /\
      (forall r t, r ∈ refs -> objs !! r = Some t ->
         exists t', objs' !! r = Some t' /\
                    ext t' = ext t /\ offset t' = offset t /\
                    numFiles t' = numFiles t /\ table_invariant t').
Proof.
  induction refs as [|r refs IH]; intros objs buf off Hnd Hfresh Hlen.
  - exists objs. cbn. repeat split; auto. intros r t Hr. inversion Hr.
  - apply NoDup_cons in Hnd as [Hr Hnd].
    destruct (Hfresh r ltac:(left)) as (t & Ht & Hnil & Hpos).
    cbn [onTables_loop]. rewrite Ht.
    cbn [declared_files] in Hlen. rewrite Ht in Hlen.
    destruct (read_files_Some (Z.to_nat (numFiles t)) buf off (ext t))
      as [fs Hfs]; [lia|].
    rewrite Hfs.
    destruct (read_files_ok _ _ _ _ _ _ Hfs) as (Hl & Hty & _).
    set (objs1 := alter (push_files fs) r objs).
    destruct (IH objs1 buf (off + 12 * Z.to_nat (numFiles t))%nat Hnd)
      as (objs' & Hloop & Hlen' & Hout & Hin).
    { intros r' Hr'. destruct (Hfresh r' ltac:(right; exact Hr'))
        as (t' & Ht' & Hn' & Hp').
      exists t'. unfold objs1.
      rewrite list_lookup_alter_ne by (intros ->; exact (Hr Hr')). auto. }
    { unfold objs1. rewrite declared_files_alter by exact Hr. lia. }
    exists objs'. split; [exact Hloop|].
    split; [rewrite Hlen'; apply length_alter|]. split.
    + intros r' Hr'. rewrite Hout by (intros H; apply Hr'; right; exact H).
      unfold objs1. apply list_lookup_alter_ne.
      intros ->. apply Hr'. left.
    + intros r' t' [->|Hr']%elem_of_cons Ht'.
      * rewrite Ht in Ht'. injection Ht' as <-.
        exists (push_files fs t). rewrite (Hout r Hr). unfold objs1.
        rewrite list_lookup_alter_eq, Ht. cbn.
        repeat split; try reflexivity.
        -- cbn. rewrite Hnil. cbn. lia.
        -- cbn. rewrite Hnil. exact Hty.
      * apply Hin; [exact Hr'|]. unfold objs1.
        rewrite list_lookup_alter_ne by (intros ->; exact (Hr Hr')). exact Ht'.
Qed.

Lemma awaiting_files_spec d :
  awaiting_files d = true ->
  forall r, r ∈ tables d ->
    exists t, objects d !! r = Some t /\ files t = [] /\ 0 <= numFiles t.
Proof.
  unfold awaiting_files. rewrite forallb_forall. intros H r Hr.
  specialize (H r ltac:(apply list_elem_of_In; exact Hr)).
  destruct (objects d !! r) as [t|]; [|discriminate].
  destruct (files t) eqn:Hf; [|discriminate].
  exists t. split; [reflexivity|]. split; [exact Hf | apply Z.leb_le, H].
Qed.

(** The total [onTableInfo] computes is the number of records announced. *)
Lemma totalFiles_declared (objs : list Table) (refs : list nat) (acc : Z) :
  (forall r, r ∈ refs -> exists t, objs !! r = Some t /\ 0 <= numFiles t) ->
  fold_left (fun total t => total + numFiles t) (omap (fun r => objs !! r) refs) acc
  = acc + Z.of_nat (declared_files objs refs).
Proof.
  revert acc. induction refs as [|r refs IH]; intros acc H; cbn; [lia|].
  destruct (H r ltac:(left)) as (t & Ht & Hpos). rewrite Ht. cbn.
  rewrite IH by (intros r' Hr'; apply H; right; exact Hr'). lia.
Qed.

Lemma sum_counted_from (ts : list Table) (acc : Z) :
  fold_left (fun total t => total + numFiles t) ts acc
  = acc + fold_left (fun total t => total + numFiles t) ts 0.
Proof.
  revert acc. induction ts as [|t ts IH]; intros acc; cbn; [lia|].
  rewrite IH, (IH (0 + numFiles t)). lia.
Qed.

Lemma files_counted_from (ts : list Table) (acc : Z) :
  fold_left (fun a t => a + Z.of_nat (length (files t))) ts acc
  = acc + fold_left (fun a t => a + Z.of_nat (length (files t))) ts 0.
Proof. rewrite !fold_left_count. lia. Qed.

(** The loop of [onTables] on the tables of a handle that wait for their
    files: what the tables are afterwards. *)
Lemma onTables_loop_tables (d : DRS) (buf : Buffer) :
  NoDup (tables d) -> awaiting_files d = true ->
  (12 * declared_files (objects d) (tables d) <= length buf)%nat ->
  exists objs,
    onTables_loop (tables d) (objects d) buf 0 = (objs, true) /\
    Forall table_invariant (table_list (set_objects objs d)) /\
    map (fun t => (ext t, offset t, numFiles t)) (table_list (set_objects objs d))
    = map (fun t => (ext t, offset t, numFiles t)) (table_list d) /\
    getFileCount (set_objects objs d)
    = fold_left (fun total t => total + numFiles t) (table_list d) 0.
Proof.
  intros Hnd Haw Hlen.
  pose proof (awaiting_files_spec _ Haw) as Hfresh.
  destruct (onTables_loop_fills (tables d) (objects d) buf 0 Hnd)
    as (objs & Hloop & _ & _ & Hin).
  { intros r Hr. apply Hfresh, Hr. }
  { lia. }
  exists objs. split; [exact Hloop|].
  unfold getFileCount, table_list. cbn [objects tables set_objects].
  assert (Hall : forall r, r ∈ tables d ->
            exists t t', objects d !! r = Some t /\ objs !! r = Some t' /\
                         ext t' = ext t /\ offset t' = offset t /\
                         numFiles t' = numFiles t /\ table_invariant t').
  { intros r Hr. destruct (Hfresh r Hr) as (t & Ht & _).
    destruct (Hin r t Hr Ht) as (t' & H & H0 & H1 & H2 & H3).
    exists t, t'. repeat split; try assumption; apply H3. }
  clear Hloop Hin Hnd Haw Hlen Hfresh.
  induction (tables d) as [|r refs IH]; cbn.
  - split; [constructor | split; reflexivity].
  - destruct (Hall r ltac:(left)) as (t & t' & -> & -> & He & Ho & Hn & Hinv).
    destruct IH as (IH1 & IH2 & IH3).
    { intros r' Hr'. apply Hall. right. exact Hr'. }
    cbn. split; [constructor; assumption|]. split.
    + rewrite He, Ho, Hn, IH2. reflexivity.
    + rewrite files_counted_from, IH3, (sum_counted_from _ (0 + numFiles t)).
      destruct Hinv as [Hc _]. lia.
Qed.

(** The buffer [onTableInfo] asks for holds every record announced. *)
Lemma onTables_buffer_fits (d : DRS) (disk0 : Buffer) (off : nat) :
  awaiting_files d = true ->
  let total := fold_left (fun total t => total + numFiles t) (table_list d) 0 in
  (12 * declared_files (objects d) (tables d)
   <= length (fs_read disk0 (Z.to_nat (FILE_META_SIZE * total)) off))%nat.
Proof.
  intros Haw. cbv zeta. pose proof (awaiting_files_spec _ Haw) as Hfresh.
  unfold table_list. rewrite totalFiles_declared.
  - rewrite length_fs_read. unfold FILE_META_SIZE. lia.
  - intros r Hr. destruct (Hfresh r Hr) as (t & ? & _ & ?). eauto.
Qed.

(** X15.  [onTables] on tables that wait for their files ([files] empty,
    counts not negative, no table listed twice), with the buffer
    [onTableInfo] asked for: the loop never reads past the buffer, the
    callback is called without an error, and afterwards every table of the
    handle has as many entries as its count says, all of them with its tag;
    tags, offsets and counts are those the tables had, and [getFileCount]
    is the sum of the counts. *)
Theorem onTables_fills_tables (w : World) (f : Z) (off : nat) (cb : callback) :
  let d := drs w in
  NoDup (tables d) -> awaiting_files d = true ->
  let total := fold_left (fun total t => total + numFiles t) (table_list d) 0 in
  let len := Z.to_nat (FILE_META_SIZE * total) in
  exists objs,
    onTables f off len cb false w
    = invoke cb r_ok (set_drs (set_objects objs d) w) /\
    let d' := set_objects objs d in
    Forall table_invariant (table_list d') /\
    map (fun t => (ext t, offset t, numFiles t)) (table_list d')
    = map (fun t => (ext t, offset t, numFiles t)) (table_list d) /\
    getFileCount d' = total.
Proof.
  cbv zeta. intros Hnd Haw.
  destruct (onTables_loop_tables (drs w)
              (fs_read (disk w)
                 (Z.to_nat (FILE_META_SIZE
                            * fold_left (fun total t => total + numFiles t)
                                (table_list (drs w)) 0)) off) Hnd Haw)
    as (objs & Hloop & Hinv & Hmap & Hcount).
  { apply onTables_buffer_fits, Haw. }
  exists objs. split.
  - unfold onTables. rewrite Hloop. reflexivity.
  - split; [exact Hinv|]. split; [exact Hmap | exact Hcount].
Qed.

Lemma onTables_fills_tables_witness :
  NoDup (tables (drs loading_world)) /\ awaiting_files (drs loading_world) = true /\
  exists objs,
    onTables 3 76 12 (cb_user 0) false loading_world
    = invoke (cb_user 0) r_ok
        (set_drs (set_objects objs (drs loading_world)) loading_world) /\
    Forall table_invariant (table_list (set_objects objs (drs loading_world))).
Proof.
  assert (H1 : NoDup (tables (drs loading_world))) by apply (NoDup_seq 0 1).
  assert (H2 : awaiting_files (drs loading_world) = true) by reflexivity.
  split; [exact H1|]. split; [exact H2|].
  destruct (onTables_fills_tables loading_world 3 76 (cb_user 0) H1 H2)
    as (objs & E & Hinv & _).
  exists objs. split; [exact E | exact Hinv].
Defined.

(** ** A whole [read] *)

Lemma onHeader_stage (w : World) (f : Z) (cb : callback) sw h n :
  parse_header (fs_read (disk w) 84 0) = Some (sw, h, n) ->
  0 <= hdr_numTables h ->
  TABLE_META_SIZE * hdr_numTables h <= kMaxLength ->
  onHeader f cb false w
  = schedule
      (p_tableInfo f n (Z.to_nat (TABLE_META_SIZE * hdr_numTables h)) cb)
      (set_drs (set_header sw h (drs w)) w).
Proof.
  intros Hp Hpos Hmax. unfold onHeader.
  change (Z.to_nat HEADER_SIZE_SWGB) with 84%nat.
  rewrite Hp. cbn -[kMaxLength]. unfold TABLE_META_SIZE in *.
  destruct (Z.ltb_spec (12 * hdr_numTables h) 0) as [?|_]; [lia|].
  destruct (Z.ltb_spec kMaxLength (12 * hdr_numTables h)) as [?|_]; [lia|].
  reflexivity.
Qed.

Lemma sum_numFiles_nonneg (ts : list Table) (acc : Z) :
  forallb (fun t => 0 <=? numFiles t) ts = true -> 0 <= acc ->
  0 <= fold_left (fun total t => total + numFiles t) ts acc.
Proof.
  revert acc. induction ts as [|t ts IH]; intros acc H Hacc; cbn; [exact Hacc|].
  cbn in H. apply andb_true_iff in H as [Ht H]. apply Z.leb_le in Ht.
  apply IH; [exact H | lia].
Qed.

Lemma awaiting_files_fresh (d : DRS) (objs ts : list Table) :
  objects d = (objs ++ ts)%list -> tables d = seq (length objs) (length ts) ->
  Forall (fun t => files t = []) ts ->
  forallb (fun t => 0 <=? numFiles t) ts = true ->
  awaiting_files d = true.
Proof.
  intros Ho Ht. unfold awaiting_files. rewrite Ho, Ht. clear Ho Ht d.
  revert objs. induction ts as [|t ts IH]; intros objs Hnil Hpos; [reflexivity|].
  cbn [length seq forallb]. rewrite list_lookup_middle by reflexivity.
  apply Forall_cons in Hnil as [Hn Hnil]. rewrite Hn.
  cbn in Hpos. apply andb_true_iff in Hpos as [Hp Hpos]. rewrite Hp. cbn.
  specialize (IH (objs ++ [t])%list Hnil Hpos).
  rewrite length_app, <- app_assoc in IH. cbn in IH.
  rewrite Nat.add_1_r in IH. exact IH.
Qed.

(** X19.  [read] on a fresh handle, the calls completing without an I/O
    error, on a file whose header declares a table count that is not
    negative and whose table records declare file counts that are not
    negative, both directories being of a size [Buffer.alloc] accepts (12
    bytes per table, and 12 bytes per file declared, at most [kMaxLength]):
    the callback is called once, without an error; no call is left
    pending; the handle holds the header and the tables of the directory
    in its order, with their tags, offsets and counts; every table has as
    many entries as its count says, all with its tag; and [getFileCount]
    is the sum of the counts.  Nothing is asked of the length of the
    file. *)
Theorem read_loads_directory (bytes : Buffer) (k : nat) sw h n (ts : list Table) :
  parse_header (fs_read bytes 84 0) = Some (sw, h, n) ->
  0 <= hdr_numTables h ->
  TABLE_META_SIZE * hdr_numTables h <= kMaxLength ->
  read_tables (Z.to_nat (hdr_numTables h))
    (fs_read bytes (Z.to_nat (TABLE_META_SIZE * hdr_numTables h)) n) 0 = Some ts ->
  forallb (fun t => 0 <=? numFiles t) ts = true ->
  FILE_META_SIZE * fold_left (fun total t => total + numFiles t) ts 0 <= kMaxLength ->
  let w := run [a_read k; a_complete 0 false; a_complete 0 false;
                a_complete 0 false; a_complete 0 false] (World_new bytes) in
  log w = [ev_callback k r_ok] /\ queue w = [] /\
  header (drs w) = Some h /\ isSWGB (drs w) = Some sw /\
  numTables (drs w) = Some (hdr_numTables h) /\
  map (fun t => (ext t, offset t, numFiles t)) (table_list (drs w))
  = map (fun t => (ext t, offset t, numFiles t)) ts /\
  Forall table_invariant (table_list (drs w)) /\
  getFileCount (drs w) = fold_left (fun total t => total + numFiles t) ts 0.
Proof.
  intros Hp Hpos Hmax Hts Hcounts Hmax'. cbv zeta.
  set (w2 := mkWorld (mkDRS [] [] (Some 3) None None None) bytes [0%nat]
               [p_header 3 (cb_user k)] [] []).
  change (run [a_read k; a_complete 0 false; a_complete 0 false;
               a_complete 0 false; a_complete 0 false] (World_new bytes))
    with (run [a_complete 0 false; a_complete 0 false; a_complete 0 false] w2).
  unfold run. cbn [fold_left].
  (* the header *)
  assert (E3 : step (a_complete 0 false) w2
               = schedule
                   (p_tableInfo 3 n (Z.to_nat (TABLE_META_SIZE * hdr_numTables h))
                      (cb_user k))
                   (set_drs (set_header sw h (drs (set_queue [] w2)))
                      (set_queue [] w2))).
  { change (step (a_complete 0 false) w2)
      with (onHeader 3 (cb_user k) false (set_queue [] w2)).
    apply onHeader_stage; assumption. }
  rewrite E3. clear E3.
  set (len := Z.to_nat (TABLE_META_SIZE * hdr_numTables h)) in *.
  set (w3 := mkWorld (mkDRS [] [] (Some 3) (Some sw) (Some h)
                        (Some (hdr_numTables h))) bytes [0%nat] [] [] []).
  change (step (a_complete 0 false) (schedule _ _))
    with (onTableInfo 3 n len (cb_user k) false w3).
  (* the table directory *)
  set (total := fold_left (fun total t => total + numFiles t) ts 0).
  assert (Htotal : 0 <= total) by (apply sum_numFiles_nonneg; [exact Hcounts | lia]).
  set (d4 := mkDRS ts (seq 0 (length ts)) (Some 3) (Some sw) (Some h)
               (Some (hdr_numTables h))).
  set (len' := Z.to_nat (FILE_META_SIZE * total)).
  assert (E4 : onTableInfo 3 n len (cb_user k) false w3
               = mkWorld d4 bytes [0%nat]
                   [p_tables 3 (n + len) len' (cb_user k)] [] []).
  { unfold onTableInfo. cbn [drs w3 numTables array_count disk]. rewrite Hts.
    cbv zeta. fold total. fold total in Hmax'.
    unfold alloc_len, FILE_META_SIZE in *.
    destruct (Z.ltb_spec (12 * total) 0) as [?|_]; [lia|].
    destruct (Z.ltb_spec kMaxLength (12 * total)) as [?|_]; [lia|].
    rewrite length_fs_read. reflexivity. }
  rewrite E4. clear E4.
  set (w4 := mkWorld d4 bytes [0%nat] [] [] []).
  change (step (a_complete 0 false) (mkWorld d4 bytes [0%nat] _ [] []))
    with (onTables 3 (n + len) len' (cb_user k) false w4).
  (* the file directory *)
  assert (Htl : table_list d4 = ts) by apply (table_list_fresh [] ts).
  assert (Haw : awaiting_files d4 = true).
  { apply (awaiting_files_fresh d4 [] ts); try reflexivity; try assumption.
    eapply read_tables_empty, Hts. }
  destruct (onTables_loop_tables d4 (fs_read bytes len' (n + len)))
    as (objs & Hloop & Hinv & Hmap & Hcount).
  { apply NoDup_seq. }
  { exact Haw. }
  { pose proof (onTables_buffer_fits d4 bytes (n + len) Haw) as Hfit.
    cbv zeta in Hfit. rewrite Htl in Hfit. exact Hfit. }
  rewrite Htl in Hmap, Hcount.
  unfold onTables. cbn [drs disk w4 tables objects d4] in *. rewrite Hloop.
  cbn. repeat split; assumption.
Qed.

Lemma read_loads_directory_witness :
  exists sw h n ts,
    parse_header (fs_read sample_archive 84 0) = Some (sw, h, n) /\
    hdr_numTables h = 1 /\ ts = [mkTable "bina" (Some 76) 1 []] /\
    log (run [a_read 0%nat; a_complete 0 false; a_complete 0 false;
              a_complete 0 false; a_complete 0 false] (World_new sample_archive))
    = [ev_callback 0 r_ok].
Proof.
  destruct (parse_header (fs_read sample_archive 84 0)) as [[[sw h] n]|] eqn:Hp;
    [|vm_compute in Hp; discriminate Hp].
  assert (Hh : hdr_numTables h = 1 /\ n = 64%nat).
  { vm_compute in Hp. injection Hp as _ <- <-. split; reflexivity. }
  destruct Hh as [Hh ->].
  exists sw, h, 64%nat, [mkTable "bina" (Some 76) 1 []].
  split; [reflexivity|]. split; [exact Hh|]. split; [reflexivity|].
  destruct (read_loads_directory sample_archive 0 sw h 64
              [mkTable "bina" (Some 76) 1 []] Hp) as (E & _).
  - lia.
  - rewrite Hh. vm_compute. discriminate.
  - rewrite Hh. reflexivity.
  - reflexivity.
  - vm_compute. discriminate.
  - exact E.
Defined.

Lemma getFile_sound_witness :
  file_id (mkFile 7 (Some 134) (Some 20) "slp " None) = 7 /\
  In (mkFile 7 (Some 134) (Some 20) "slp " None) (getFiles sample_drs).
Proof.
  destruct (getFile_sound sample_drs 7) as [H _].
  apply H. reflexivity.
Defined.
